(** * Room monitor of matrix-rooms-bot: a shallow embedding

  The repository holds two versions of the [RoomMonitor] class:

  - [Hierarchy] and [Monitor]: the class in [src/index.js], which walks the
    paginated [/hierarchy] endpoint ([recurseHierarchy], with one
    [try]/[catch] around the whole walk), diffs, notifies and persists;
  - [StateApi]: the walk of the class in [src/room-monitor.js], which reads
    the [m.space.child] state events of each space and guards every
    sub-space with its own [try]/[catch]. Its [loadState], [saveState],
    [startMonitoring] and [stopMonitoring] are those of the first class
    without [roomNames].

  Remote calls, the state file and the outgoing messages are explicit
  components of a [world]; the [RoomMonitor] object is a record that the
  methods pass along. Recursion over the remote hierarchy takes fuel.
  [Loop] splits a cycle at its [await]s and lets the timer, the settling of
  awaited calls and [stopMonitoring] interleave. *)

From stdpp Require Import base option strings list gmap sets.

Open Scope string_scope.
Open Scope list_scope.
Open Scope nat_scope.

#[local] Set Warnings "-register-all,-clear-no-such-hyp".

(** ** JavaScript values used by the monitor *)

Module Js.

(** Truthiness of a value that is a string, [null] or [undefined]. *)
Definition truthy (o : option string) : bool :=
  match o with
  | Some s => negb (String.eqb s "")
  | None => false
  end.

(** [o || null] on such a value. *)
Definition or_null (o : option string) : option string :=
  if truthy o then o else None.

(** [o || d] with a string default. *)
Definition or_str (o : option string) (d : string) : string :=
  match o with
  | Some s => if String.eqb s "" then d else s
  | None => d
  end.

(** [n || 0] on a number that may be missing. *)
Definition or_zero (o : option nat) : nat := default 0 o.

(** A [Set] of strings: the members in insertion order, none twice. *)
Definition has (s : list string) (x : string) : bool := bool_decide (x ∈ s).

Definition add (s : list string) (x : string) : list string :=
  if has s x then s else s ++ [x].

(** [new Set(iterable)]. *)
Definition SetOf (l : list string) : list string := foldl add [] l.

End Js.

(** ** The class that walks the [/hierarchy] endpoint *)

Module Hierarchy.

(** One entry of [response.rooms]. *)
Record child := Child {
  c_room_id : string;
  c_room_type : option string;
  c_name : option string;
  c_canonical_alias : option string;
  c_topic : option string;
  c_num_joined_members : option nat
}.

(** The [metadata] object pushed on [allRooms]. *)
Record room := Room {
  room_id : string;
  name : option string;
  canonicalAlias : option string;
  topic : string;
  memberCount : nat
}.

(** One page of a child listing. *)
Record response := Response {
  rooms : list child;
  next_batch : option string
}.

(** [matrixClient.http.authedRequest] on the hierarchy of [spaceId], with
    the [from] token when there is one. [None]: the awaited call rejects,
    or what it resolves to cannot be read as a page. *)
Definition server := string → option string → option response.

(** What one call of [fetchRoomsInSpace] owns: the visited set, the result
    array, and (ghost) the requests it issued, oldest first. *)
Record tstate := TState {
  visitedSpaces : gset string;
  allRooms : list room;
  requests : list (string * option string)
}.

Inductive outcome :=
| Done (st : tstate)
| Threw (st : tstate)
| OutOfFuel.

Definition isSpace (c : child) : bool :=
  bool_decide (c_room_type c = Some "m.space").

Definition metadata (c : child) : room :=
  {| room_id := c_room_id c;
     name := Js.or_null (c_name c);
     canonicalAlias := Js.or_null (c_canonical_alias c);
     topic := Js.or_str (c_topic c) "";
     memberCount := Js.or_zero (c_num_joined_members c) |}.

Definition push (r : room) (st : tstate) : tstate :=
  {| visitedSpaces := visitedSpaces st;
     allRooms := allRooms st ++ [r];
     requests := requests st |}.

Definition visit (spaceId : string) (st : tstate) : tstate :=
  {| visitedSpaces := {[spaceId]} ∪ visitedSpaces st;
     allRooms := allRooms st;
     requests := requests st |}.

Definition request (spaceId : string) (tok : option string) (st : tstate)
  : tstate :=
  {| visitedSpaces := visitedSpaces st;
     allRooms := allRooms st;
     requests := requests st ++ [(spaceId, tok)] |}.

(** [for (const room of rooms)]: [rec] is the recursive call. *)
Fixpoint forRooms (rec : string → tstate → outcome)
    (l : list child) (st : tstate) : outcome :=
  match l with
  | [] => Done st
  | c :: rest =>
      if isSpace c then
        match rec (c_room_id c) st with
        | Done st' => forRooms rec rest st'
        | o => o
        end
      else forRooms rec rest (push (metadata c) st)
  end.

(** The [do ... while (nextBatch)] loop; [n] bounds the pages read. *)
Fixpoint pageLoop (srv : server) (rec : string → tstate → outcome)
    (n : nat) (spaceId : string) (nextBatch : option string)
    (st : tstate) : outcome :=
  match n with
  | 0 => OutOfFuel
  | S n' =>
      let tok := if Js.truthy nextBatch then nextBatch else None in
      let st1 := request spaceId tok st in
      match srv spaceId tok with
      | None => Threw st1
      | Some resp =>
          match forRooms rec (rooms resp) st1 with
          | Done st2 =>
              if Js.truthy (next_batch resp)
              then pageLoop srv rec n' spaceId (next_batch resp) st2
              else Done st2
          | o => o
          end
      end
  end.

Fixpoint recurseHierarchy (srv : server) (fuel : nat)
    (spaceId : string) (st : tstate) : outcome :=
  match fuel with
  | 0 => OutOfFuel
  | S fuel' =>
      if bool_decide (spaceId ∈ visitedSpaces st) then Done st
      else pageLoop srv (recurseHierarchy srv fuel') fuel' spaceId None
             (visit spaceId st)
  end.

Definition start (visited : gset string) : tstate :=
  {| visitedSpaces := visited; allRooms := []; requests := [] |}.

(** The walk of [fetchRoomsInSpace] with everything it leaves behind;
    [None] when the fuel does not suffice. The [catch] turns a throw into
    a normal return of what [allRooms] holds. *)
Definition traverse (srv : server) (fuel : nat) (spaceId : string)
    (visited : gset string) : option tstate :=
  match recurseHierarchy srv fuel spaceId (start visited) with
  | Done st | Threw st => Some st
  | OutOfFuel => None
  end.

Definition fetchRoomsInSpace (srv : server) (fuel : nat)
    (spaceId : string) (visited : gset string) : option (list room) :=
  allRooms <$> traverse srv fuel spaceId visited.

(** The pages of the listing of [spaceId] from token [tok] on: every page
    but the last carries the token that leads to the next one. *)
Inductive pagesFrom (srv : server) (spaceId : string)
  : option string → list response → Prop :=
| pages_last tok resp :
    srv spaceId tok = Some resp →
    Js.truthy (next_batch resp) = false →
    pagesFrom srv spaceId tok [resp]
| pages_more tok resp rest :
    srv spaceId tok = Some resp →
    Js.truthy (next_batch resp) = true →
    pagesFrom srv spaceId (next_batch resp) rest →
    pagesFrom srv spaceId tok (resp :: rest).

(** The tokens of the requests that read [pages], the first with [tok]. *)
Fixpoint asked (tok : option string) (pages : list response)
  : list (option string) :=
  match pages with
  | [] => []
  | resp :: rest => tok :: asked (next_batch resp) rest
  end.

(** The records of the leaf rooms among some entries. *)
Definition leaves (l : list child) : list room :=
  metadata <$> filter (λ c, isSpace c = false) l.

(** The spaces whose listing was asked for from its start, in order. *)
Definition firsts (st : tstate) : list string :=
  (filter (λ q, q.2 = None) (requests st)).*1.

(** What a walk adds to a state: the visited set grows, and every space
    that becomes visited has its listing asked for from the start once. *)
Definition extends (st st' : tstate) : Prop :=
  visitedSpaces st ⊆ visitedSpaces st'
  ∧ ∃ new, firsts st' = firsts st ++ new
           ∧ NoDup new
           ∧ ∀ x, x ∈ new ↔ x ∈ visitedSpaces st' ∧ x ∉ visitedSpaces st.

(** The requests made to space [s], in order. *)
Definition toSpace (s : string) (st : tstate) : list (string * option string) :=
  filter (λ q, q.1 = s) (requests st).

(** What a walk below a visited space [s] keeps: [s] stays visited, no
    request goes to [s], and the result array only grows at its end. *)
Definition keeps (s : string) (st st' : tstate) : Prop :=
  s ∈ visitedSpaces st →
  s ∈ visitedSpaces st'
  ∧ toSpace s st' = toSpace s st
  ∧ allRooms st `prefix_of` allRooms st'.

(** A property of the state that a walk leaves, thrown or not. *)
Definition both (o : outcome) (Q : tstate → Prop) : Prop :=
  match o with
  | Done st | Threw st => Q st
  | OutOfFuel => True
  end.

End Hierarchy.

(** ** The state file *)

Module Json.

(** A value that [JSON.parse] can return. Numbers enter the monitor only
    through their truthiness. *)
Inductive json :=
| JNull
| JBool (b : bool)
| JNum (n : Z)
| JStr (s : string)
| JArr (l : list json)
| JObj (fields : list (string * json)).

Definition truthy (v : json) : bool :=
  match v with
  | JNull => false
  | JBool b => b
  | JNum n => negb (n =? 0)%Z
  | JStr s => negb (String.eqb s "")
  | JArr _ | JObj _ => true
  end.

Fixpoint assoc (k : string) (fs : list (string * json)) : option json :=
  match fs with
  | [] => None
  | (k', v) :: rest => if String.eqb k k' then Some v else assoc k rest
  end.

(** [v.k]: the outer [None] is the [TypeError] of reading a property of
    [null]; the inner one is [undefined]. *)
Definition prop (k : string) (v : json) : option (option json) :=
  match v with
  | JNull => None
  | JObj fs => Some (assoc k fs)
  | _ => Some None
  end.

(** [o[k] = v] on the fields of an object: an own key keeps its place, a
    fresh one goes last. *)
Fixpoint assign (k : string) (v : json) (fs : list (string * json))
  : list (string * json) :=
  match fs with
  | [] => [(k, v)]
  | (k', v') :: rest =>
      if String.eqb k k' then (k, v) :: rest else (k', v') :: assign k v rest
  end.

(** [target[k] = v] in strict mode (the class lives in an ES module):
    [None] is the [TypeError] of creating a property on a primitive. A
    named property set on an array is not part of its JSON form; room ids
    start with [!], so they are never array indices. *)
Definition setProp (k : string) (v : json) (target : json) : option json :=
  match target with
  | JObj fs => Some (JObj (assign k v fs))
  | JArr l => Some (JArr l)
  | _ => None
  end.

Definition chars (s : string) : list string :=
  (λ a, String a EmptyString) <$> String.list_ascii_of_string s.

Definition asString (v : json) : option string :=
  match v with JStr s => Some s | _ => None end.

(** [new Set(v)]: [None] when [v] is not iterable. Only the string members
    are kept: no other member can be equal to a room id, and the monitor
    replaces the whole set before it enumerates it. *)
Definition toSet (v : json) : option (list string) :=
  match v with
  | JArr l => Some (Js.SetOf (omap asString l))
  | JStr s => Some (Js.SetOf (chars s))
  | _ => None
  end.

(** The file at [this.stateFile]. A file written as [JSON.stringify(v)]
    is read back by [JSON.parse] as [v]. *)
Inductive file :=
| Missing                (* existsSync is false *)
| Unreadable             (* readFile rejects *)
| Garbage                (* JSON.parse throws on the text *)
| Stored (v : json).

End Json.

Export Json.

(** ** The monitor object, its world and its methods *)

Module Monitor.

Import Hierarchy.

Record RoomMonitor := {
  observedSpace : option string;
  notificationRoom : option string;
  checkInterval : option N;              (* config.roomMonitor?.checkInterval *)
  lastCheckedRooms : list string;
  roomNames : json;
  isRunning : bool;
  monitoringInterval : option N        (* period of the installed timer *)
}.

(** The [message] handed to [sendEvent]; its two texts are built from
    these values alone. [msg_named] tells whether the name line is shown. *)
Record message := {
  msg_roomId : string;
  msg_roomName : string;
  msg_named : bool;
  msg_roomDescription : string;
  msg_memberCount : nat;
  msg_roomLink : string
}.

Record world := {
  remote : server;
  disk : file;                           (* the file at this.stateFile *)
  disk_writable : bool;                  (* writeFile resolves *)
  outbox : list (option string * message);   (* calls of sendEvent *)
  clock : string                         (* new Date().toISOString() *)
}.

Record result := {
  r_checked : nat;
  r_new : nat;
  r_error : bool;
  r_timestamp : string
}.

Definition constructor (space notif : option string) (interval : option N)
  : RoomMonitor :=
  {| observedSpace := space; notificationRoom := notif;
     checkInterval := interval;
     lastCheckedRooms := []; roomNames := JObj [];
     isRunning := false; monitoringInterval := None |}.

Definition set_lastCheckedRooms (s : list string) (m : RoomMonitor) :=
  {| observedSpace := observedSpace m; notificationRoom := notificationRoom m;
     checkInterval := checkInterval m;
     lastCheckedRooms := s; roomNames := roomNames m;
     isRunning := isRunning m; monitoringInterval := monitoringInterval m |}.

Definition set_roomNames (v : json) (m : RoomMonitor) :=
  {| observedSpace := observedSpace m; notificationRoom := notificationRoom m;
     checkInterval := checkInterval m;
     lastCheckedRooms := lastCheckedRooms m; roomNames := v;
     isRunning := isRunning m; monitoringInterval := monitoringInterval m |}.

Definition set_running (b : bool) (t : option N) (m : RoomMonitor) :=
  {| observedSpace := observedSpace m; notificationRoom := notificationRoom m;
     checkInterval := checkInterval m;
     lastCheckedRooms := lastCheckedRooms m; roomNames := roomNames m;
     isRunning := b; monitoringInterval := t |}.

Definition set_disk (f : file) (w : world) :=
  {| remote := remote w; disk := f; disk_writable := disk_writable w;
     outbox := outbox w; clock := clock w |}.

Definition set_remote (srv : server) (w : world) :=
  {| remote := srv; disk := disk w; disk_writable := disk_writable w;
     outbox := outbox w; clock := clock w |}.

Definition set_outbox (o : list (option string * message)) (w : world) :=
  {| remote := remote w; disk := disk w; disk_writable := disk_writable w;
     outbox := o; clock := clock w |}.

(** [sendEnhancedRoomNotification]: whether [sendEvent] resolves or
    rejects, the method logs and returns normally. *)
Definition notification (r : room) : message :=
  let roomId := room_id r in
  let roomName :=
    Js.or_str (name r) (Js.or_str (canonicalAlias r) roomId) in
  {| msg_roomId := roomId;
     msg_roomName := roomName;
     msg_named := negb (String.eqb roomName roomId);
     msg_roomDescription := topic r;
     msg_memberCount := memberCount r;
     msg_roomLink :=
       "https://matrix.to/#/" +:+
       (if Js.truthy (canonicalAlias r)
        then default "" (canonicalAlias r) else roomId) |}.

Definition sendEnhancedRoomNotification (r : room) (m : RoomMonitor)
    (w : world) : world :=
  set_outbox (outbox w ++ [(notificationRoom m, notification r)]) w.

(** The snapshot object of [saveState]. *)
Definition snapshot (m : RoomMonitor) (w : world) : json :=
  JObj ([("rooms", JArr (JStr <$> lastCheckedRooms m));
         ("roomNames", roomNames m);
         ("lastUpdated", JStr (clock w))] ++
        match observedSpace m with
        | Some s => [("observedSpace", JStr s)]
        | None => []
        end).

Definition saveState (m : RoomMonitor) (w : world) : world :=
  if disk_writable w then set_disk (Stored (snapshot m w)) w else w.

(** [loadState]: the flag it returns and the monitor it leaves. *)
Definition loadState (m : RoomMonitor) (w : world) : bool * RoomMonitor :=
  match disk w with
  | Missing => (false, m)
  | Unreadable | Garbage => (false, m)
  | Stored state =>
      match prop "rooms" state with
      | None => (false, m)
      | Some rs =>
          let rs := match rs with
                    | Some v => if Json.truthy v then v else JArr []
                    | None => JArr []
                    end in
          match toSet rs with
          | None => (false, m)
          | Some s =>
              let m1 := set_lastCheckedRooms s m in
              let names := match prop "roomNames" state with
                           | Some (Some v) =>
                               if Json.truthy v then v else JObj []
                           | _ => JObj []
                           end in
              (true, set_roomNames names m1)
          end
      end
  end.

(** The [rooms] array that the state file holds. *)
Definition persistedRooms (f : file) : option json :=
  match f with
  | Stored v => mjoin (prop "rooms" v)
  | _ => None
  end.

Definition configured (m : RoomMonitor) : bool :=
  Js.truthy (observedSpace m) && Js.truthy (notificationRoom m).

(** The diff of [checkForNewRooms]. *)
Definition currentRoomIdsOf (rs : list room) : list string :=
  Js.SetOf (room_id <$> rs).

Definition newRoomsOf (known : list string) (rs : list room) : list room :=
  filter (λ r, Js.has known (room_id r) = false) rs.

(** The loop that records names: the second component is [false] when an
    assignment threw. *)
Fixpoint recordNames (l : list room) (names : json) : json * bool :=
  match l with
  | [] => (names, true)
  | r :: rest =>
      if Js.truthy (name r)
         && negb (bool_decide (name r = Some (room_id r)))
      then match setProp (room_id r) (JStr (default "" (name r))) names with
           | Some names' => recordNames rest names'
           | None => (names, false)
           end
      else recordNames rest names
  end.

Definition notifyAll (l : list room) (m : RoomMonitor) (w : world) : world :=
  foldl (λ w r, sendEnhancedRoomNotification r m w) w l.

(** [checkForNewRooms], run without interleaving. [None]: the walk does not
    return within the fuel. The result is [None] for [undefined]. *)
Definition checkForNewRooms (fuel : nat) (shouldAlert : bool)
    (m : RoomMonitor) (w : world)
  : option (option result * RoomMonitor * world) :=
  if negb (configured m) then Some (None, m, w)
  else
    rs ← fetchRoomsInSpace (remote w) fuel (default "" (observedSpace m)) ∅;
    let currentRoomIds := currentRoomIdsOf rs in
    let newRooms := newRoomsOf (lastCheckedRooms m) rs in
    match recordNames newRooms (roomNames m) with
    | (names, false) =>
        Some (Some {| r_checked := 0; r_new := 0; r_error := true;
                      r_timestamp := clock w |},
              set_roomNames names m, w)
    | (names, true) =>
        let m1 := set_roomNames names m in
        let w1 := if shouldAlert && bool_decide (0 < length newRooms)
                  then notifyAll newRooms m1 w else w in
        let m2 := set_lastCheckedRooms currentRoomIds m1 in
        let w2 := saveState m2 w1 in
        Some (Some {| r_checked := length currentRoomIds;
                      r_new := length newRooms; r_error := false;
                      r_timestamp := clock w2 |}, m2, w2)
    end.

(** What [notifyAll] hands to [sendEvent]. *)
Definition sent (m : RoomMonitor) (l : list room)
  : list (option string * message) :=
  (λ r, (notificationRoom m, notification r)) <$> l.

(** The cycle once the walk has returned [rs]. *)
Definition completed (shouldAlert : bool) (rs : list room) (m : RoomMonitor) (w : world) (names : json)
  : option result * RoomMonitor * world :=
  let m1 := set_roomNames names m in
  let newRooms := newRoomsOf (lastCheckedRooms m) rs in
  let w1 := if shouldAlert && bool_decide (0 < length newRooms)
            then notifyAll newRooms m1 w else w in
  let m2 := set_lastCheckedRooms (currentRoomIdsOf rs) m1 in
  let w2 := saveState m2 w1 in
  (Some {| r_checked := length (currentRoomIdsOf rs);
           r_new := length newRooms; r_error := false;
           r_timestamp := clock w2 |}, m2, w2).

Definition aborted (m : RoomMonitor) (w : world) (names : json)
  : option result * RoomMonitor * world :=
  (Some {| r_checked := 0; r_new := 0; r_error := true;
           r_timestamp := clock w |}, set_roomNames names m, w).

(** The room ids that a list of [sendEvent] calls announces. *)
Definition notifiedIds (o : list (option string * message)) : list string :=
  (λ p, msg_roomId p.2) <$> o.

(** Alerting cycles run one after the other, each against the hierarchy
    the remote presents at that time. *)
Fixpoint cycles (fuel : nat) (remotes : list server) (m : RoomMonitor)
    (w : world) : option (RoomMonitor * world) :=
  match remotes with
  | [] => Some (m, w)
  | srv :: rest =>
      '(_, m', w') ← checkForNewRooms fuel true m (set_remote srv w);
      cycles fuel rest m' w'
  end.

Definition interval (m : RoomMonitor) : N :=
  match checkInterval m with
  | Some 0%N | None => 300000%N
  | Some n => n
  end.

(** [startMonitoring] run in one piece, from the call to the installation of
    the timer, with nothing else between its two [await]s; [Startup] has the
    call on the event loop, where [stopMonitoring] can come in between. *)
Definition startMonitoring (fuel : nat) (m : RoomMonitor) (w : world)
  : option (RoomMonitor * world) :=
  if isRunning m then Some (m, w)
  else if negb (configured m) then Some (m, w)
  else
    let m1 := set_running true (monitoringInterval m) m in
    let '(hasExistingState, m2) := loadState m1 w in
    '(_, m3, w3) ← checkForNewRooms fuel hasExistingState m2 w;
    Some (set_running (isRunning m3) (Some (interval m3)) m3, w3).

Definition stopMonitoring (m : RoomMonitor) : RoomMonitor :=
  set_running false None m.

End Monitor.

(** ** The event loop: cycles as tasks suspended at their [await]s *)

Module Loop.

Import Hierarchy Monitor.

(** Where an invocation of [checkForNewRooms] can be suspended. The walk
    owns its visited set and result array and reads a remote that the
    monitor does not change, so its requests are taken in one piece. *)
Inductive task :=
| AwaitFetch (shouldAlert : bool)
| AwaitSend (rest : list room) (currentRoomIds : list string) (found : nat)
| AwaitDelay (rest : list room) (currentRoomIds : list string) (found : nat)
| AwaitSave (currentRoomIds : list string) (found : nat).

Inductive progress :=
| Suspended (t : task)
| Finished (r : option result).

(** From [this.lastCheckedRooms = currentRoomIds] to the [await] on
    [writeFile]: the text is built and handed over before the suspension. *)
Definition persist (currentRoomIds : list string) (found : nat)
    (m : RoomMonitor) (w : world) : progress * RoomMonitor * world :=
  let m2 := set_lastCheckedRooms currentRoomIds m in
  (Suspended (AwaitSave currentRoomIds found), m2, saveState m2 w).

(** The code between the return of the walk and the next [await]. *)
Definition afterFetch (shouldAlert : bool) (rs : list room)
    (m : RoomMonitor) (w : world) : progress * RoomMonitor * world :=
  let currentRoomIds := currentRoomIdsOf rs in
  let newRooms := newRoomsOf (lastCheckedRooms m) rs in
  match recordNames newRooms (roomNames m) with
  | (names, false) =>
      (Finished (Some {| r_checked := 0; r_new := 0; r_error := true;
                         r_timestamp := clock w |}),
       set_roomNames names m, w)
  | (names, true) =>
      let m1 := set_roomNames names m in
      match newRooms with
      | r :: rest =>
          if shouldAlert
          then (Suspended (AwaitSend rest currentRoomIds (length newRooms)),
                m1, sendEnhancedRoomNotification r m1 w)
          else persist currentRoomIds (length newRooms) m1 w
      | [] => persist currentRoomIds 0 m1 w
      end
  end.

(** One task runs from its suspension point to the next one. *)
Definition resume (fuel : nat) (t : task) (m : RoomMonitor) (w : world)
  : option (progress * RoomMonitor * world) :=
  match t with
  | AwaitFetch shouldAlert =>
      rs ← fetchRoomsInSpace (remote w) fuel (default "" (observedSpace m)) ∅;
      Some (afterFetch shouldAlert rs m w)
  | AwaitSend rest cur n => Some (Suspended (AwaitDelay rest cur n), m, w)
  | AwaitDelay (r :: rest) cur n =>
      Some (Suspended (AwaitSend rest cur n), m,
            sendEnhancedRoomNotification r m w)
  | AwaitDelay [] cur n => Some (persist cur n m w)
  | AwaitSave cur n =>
      Some (Finished (Some {| r_checked := length cur; r_new := n;
                              r_error := false; r_timestamp := clock w |}),
            m, w)
  end.

(** A call of [checkForNewRooms] up to its first suspension. *)
Definition spawn (shouldAlert : bool) (m : RoomMonitor) : progress :=
  if negb (configured m) then Finished None
  else Suspended (AwaitFetch shouldAlert).

Record sys := {
  mon : RoomMonitor;
  wld : world;
  inflight : list task;                  (* the cycles that have not returned *)
  returned : list (option result)
}.

Inductive event :=
| Tick                                   (* the interval timer fires *)
| Resume (i : nat)                       (* what task [i] awaits is settled *)
| Stop                                   (* stopMonitoring is called *)
| Change (srv : server).                 (* the remote hierarchy changes *)

Definition step (fuel : nat) (e : event) (s : sys) : option sys :=
  match e with
  | Tick =>
      match monitoringInterval (mon s) with
      | None => None
      | Some _ =>
          if isRunning (mon s) then
            match spawn true (mon s) with
            | Suspended t =>
                Some {| mon := mon s; wld := wld s;
                        inflight := inflight s ++ [t];
                        returned := returned s |}
            | Finished r =>
                Some {| mon := mon s; wld := wld s;
                        inflight := inflight s;
                        returned := returned s ++ [r] |}
            end
          else Some s
      end
  | Resume i =>
      t ← inflight s !! i;
      '(p, m, w) ← resume fuel t (mon s) (wld s);
      match p with
      | Suspended t' =>
          Some {| mon := m; wld := w;
                  inflight := <[i := t']> (inflight s);
                  returned := returned s |}
      | Finished r =>
          Some {| mon := m; wld := w;
                  inflight := delete i (inflight s);
                  returned := returned s ++ [r] |}
      end
  | Stop =>
      Some {| mon := stopMonitoring (mon s); wld := wld s;
              inflight := inflight s; returned := returned s |}
  | Change srv =>
      Some {| mon := mon s; wld := set_remote srv (wld s);
              inflight := inflight s; returned := returned s |}
  end.

Fixpoint run (fuel : nat) (es : list event) (s : sys) : option sys :=
  match es with
  | [] => Some s
  | e :: rest => s' ← step fuel e s; run fuel rest s'
  end.

(** The system once [startMonitoring] has returned. *)
Definition started (fuel : nat) (m : RoomMonitor) (w : world) : option sys :=
  '(m', w') ← startMonitoring fuel m w;
  Some {| mon := m'; wld := w'; inflight := []; returned := [] |}.

(** One task alone, resumed until it returns. *)
Fixpoint drain (fuel : nat) (k : nat) (p : progress) (m : RoomMonitor)
    (w : world) : option (option result * RoomMonitor * world) :=
  match p with
  | Finished r => Some (r, m, w)
  | Suspended t =>
      match k with
      | 0 => None
      | S k' => '(p', m', w') ← resume fuel t m w; drain fuel k' p' m' w'
      end
  end.

End Loop.

(** ** The class of [room-monitor.js]: one state request per space *)

Module StateApi.

(** A state event, as far as [fetchRoomsInSpace] reads it. *)
Record event := {
  type : string;
  state_key : string;
  content_name : option string;
  content_room_type : option string
}.

Record room := { room_id : string; name : string }.

(** The state request of a space: the outer [None] is a rejection, the
    inner one a falsy response. *)
Definition server := string → option (option (list event)).

Definition isChild (e : event) : bool := String.eqb (type e) "m.space.child".

Definition entry (e : event) : room :=
  {| room_id := state_key e;
     name := Js.or_str (content_name e) (state_key e) |}.

Definition roomsOf (es : list event) : list room :=
  entry <$> filter (λ e, isChild e = true
                         ∧ content_room_type e ≠ Some "m.space") es.

Definition subspacesOf (es : list event) : list room :=
  entry <$> filter (λ e, isChild e = true
                         ∧ content_room_type e = Some "m.space") es.

(** The visited set that the calls of one walk share and (ghost) the spaces
    whose state was requested, oldest first. *)
Record wstate := {
  visitedSpaces : gset string;
  asked : list string
}.

Definition start : wstate := {| visitedSpaces := ∅; asked := [] |}.

Definition visit (spaceId : string) (st : wstate) : wstate :=
  {| visitedSpaces := {[spaceId]} ∪ visitedSpaces st;
     asked := asked st ++ [spaceId] |}.

(** [for (const subspace of subspaces)]: [rec] returns the rooms of a
    sub-space and the state it leaves, or [None] without fuel. Its own
    [try] covers everything it does, so the [catch] around the call has
    nothing to catch. *)
Fixpoint forSubspaces
    (rec : string → wstate → option (list room * wstate))
    (subs : list room) (acc : list room) (st : wstate)
  : option (list room * wstate) :=
  match subs with
  | [] => Some (acc, st)
  | s :: rest =>
      '(rs, st') ← rec (room_id s) st;
      forSubspaces rec rest (acc ++ rs) st'
  end.

Fixpoint fetchRoomsInSpace (srv : server) (fuel : nat) (spaceId : string)
    (st : wstate) : option (list room * wstate) :=
  match fuel with
  | 0 => None
  | S fuel' =>
      if bool_decide (spaceId ∈ visitedSpaces st) then Some ([], st)
      else
        match srv spaceId with
        | None | Some None => Some ([], visit spaceId st)
        | Some (Some es) =>
            forSubspaces (fetchRoomsInSpace srv fuel') (subspacesOf es)
              (roomsOf es) (visit spaceId st)
        end
  end.

(** The server that presents the state events of the spaces of [g]; the
    request for any other space is rejected. *)
Definition serve (g : gmap string (list event)) : server :=
  λ s, Some <$> g !! s.

(** What a walk adds to the shared state. *)
Definition extends (st st' : wstate) : Prop :=
  visitedSpaces st ⊆ visitedSpaces st'
  ∧ ∃ new, asked st' = asked st ++ new
           ∧ NoDup new
           ∧ ∀ x, x ∈ new ↔ x ∈ visitedSpaces st' ∧ x ∉ visitedSpaces st.

End StateApi.

(** ** Space graphs and the server that presents one *)

Module Graph.

Import Hierarchy.

(** A space graph: for each space, the pages of its child listing.
    A space that has no entry cannot be expanded. *)
Abbreviation graph := (gmap string (list (list child))).

(** The continuation token that leads to page [k]. *)
Fixpoint token (k : nat) : string :=
  match k with
  | 0 => ""
  | S k' => "t" +:+ token k'
  end.

Definition pageOf (tok : option string) : nat :=
  match tok with
  | Some t => String.length t
  | None => 0
  end.

Definition serve (g : graph) : server := λ spaceId tok,
  pages ← g !! spaceId;
  let k := pageOf tok in
  Some {| rooms := default [] (pages !! k);
          next_batch := if bool_decide (S k < length pages)
                        then Some (token (S k)) else None |}.

Definition entries (g : graph) (s : string) : list child :=
  mjoin (default [] (g !! s)).

Definition spaceChildren (g : graph) (s : string) : list string :=
  c_room_id <$> filter (λ c, isSpace c = true) (entries g s).

Inductive reach (g : graph) (root : string) : string → Prop :=
| reach_root : reach g root root
| reach_child s c :
    reach g root s → c ∈ spaceChildren g s → reach g root c.

(** Every sub-space that a listing names has a listing of its own. *)
Definition closed (g : graph) : Prop :=
  map_Forall (λ _ pages,
    Forall (λ c, isSpace c = true → c_room_id c ∈ dom g) (mjoin pages)) g.

Definition maxPages (g : graph) : nat :=
  foldr max 0 ((λ kv, length kv.2) <$> map_to_list g).

Definition enoughFuel (g : graph) : nat := size g + maxPages g + 2.

(** From [V] to [V']: more spaces are visited, and every sub-space that a
    newly visited space lists is visited too. *)
Definition saturated (g : graph) (V V' : gset string) : Prop :=
  V ⊆ V'
  ∧ ∀ v c, v ∈ V' → v ∉ V → c ∈ spaceChildren g v → c ∈ V'.

(** The walk returned normally, in a state where [Q] holds. *)
Definition completes (o : outcome) (Q : tstate → Prop) : Prop :=
  match o with
  | Done st => Q st
  | Threw _ => False
  | OutOfFuel => True
  end.

(** How often the child listing of [s] was asked for from its start. *)
Definition expansions (s : string) (st : tstate) : nat :=
  length (filter (λ q, q = (s, None)) (requests st)).

End Graph.


(** ** The change detector, in the words of its contract *)

Module ChangeDetector.

Import Hierarchy.

(** [currentIds]: the set of the room ids of [currentRooms]. *)
Definition currentIds (currentRooms : list room) : gset string :=
  list_to_set (room_id <$> currentRooms).

(** [newRooms]: the rooms of [currentRooms] whose id is absent from
    [previousKnownIds], in the order of [currentRooms]. *)
Fixpoint newRooms (currentRooms : list room) (previousKnownIds : gset string)
  : list room :=
  match currentRooms with
  | [] => []
  | r :: rest =>
      if decide (room_id r ∈ previousKnownIds)
      then newRooms rest previousKnownIds
      else r :: newRooms rest previousKnownIds
  end.

End ChangeDetector.

(** ** Hierarchies, monitors and worlds used as instances *)

Module Example.

Import Hierarchy Monitor.

Definition leaf (id : string) : child :=
  {| c_room_id := id; c_room_type := None; c_name := None;
     c_canonical_alias := None; c_topic := None;
     c_num_joined_members := None |}.

Definition space (id : string) : child :=
  {| c_room_id := id; c_room_type := Some "m.space"; c_name := None;
     c_canonical_alias := None; c_topic := None;
     c_num_joined_members := None |}.

Definition plain (id : string) : room := metadata (leaf id).

(** A server given by the single page of each space it knows. *)
Fixpoint single (l : list (string * list child)) : server := λ s tok,
  match l with
  | [] => None
  | (s', cs) :: rest =>
      if String.eqb s s'
      then Some {| rooms := cs; next_batch := None |}
      else single rest s tok
  end.

(** The root lists three rooms. *)
Definition three : server :=
  single [("!root", [leaf "!r1"; leaf "!r2"; leaf "!r3"])].

(** The root lists a room that one of its sub-spaces lists too. *)
Definition shared : server :=
  single [("!root", [leaf "!r"; space "!B"]); ("!B", [leaf "!r"])].

(** The root lists one room; the root lists nothing; nothing answers. *)
Definition one : server := single [("!root", [leaf "!r"])].
Definition none : server := single [("!root", [])].
Definition down : server := single [].

(** Sub-space [!X] cannot be expanded, its sibling [!Y] holds two rooms. *)
Definition broken : server :=
  single [("!root", [space "!X"; space "!Y"]);
          ("!Y", [leaf "!r5"; leaf "!r6"])].

Definition fresh : RoomMonitor :=
  constructor (Some "!root") (Some "!notif") None.

(** A monitor that already knows room [!r]. *)
Definition knowing : RoomMonitor :=
  set_lastCheckedRooms ["!r"] fresh.

Definition world0 (srv : server) : world :=
  {| remote := srv; disk := Missing; disk_writable := true;
     outbox := []; clock := "2026-01-01T00:00:00.000Z" |}.

(** The hierarchy of [broken] as the state requests of [room-monitor.js]
    present it. *)
Definition childEvent (id : string) (ty : option string) : StateApi.event :=
  {| StateApi.type := "m.space.child"; StateApi.state_key := id;
     StateApi.content_name := None; StateApi.content_room_type := ty |}.

Definition brokenState : StateApi.server := λ s,
  if String.eqb s "!root"
  then Some (Some [childEvent "!X" (Some "m.space");
                   childEvent "!Y" (Some "m.space")])
  else if String.eqb s "!Y"
  then Some (Some [childEvent "!r5" None; childEvent "!r6" None])
  else None.

(** A listing in three pages; the second names the space itself. *)
Definition paged : gmap string (list (list child)) :=
  {[ "!root" := [[leaf "!a"]; [leaf "!b"; space "!root"]; [leaf "!c"]] ]}.

Definition pages3 : list response :=
  [ {| rooms := [leaf "!a"]; next_batch := Some "t" |};
    {| rooms := [leaf "!b"; space "!root"]; next_batch := Some "tt" |};
    {| rooms := [leaf "!c"]; next_batch := None |} ].

(** Two spaces that list each other. *)
Definition cyclic : gmap string (list (list child)) :=
  {[ "!A" := [[space "!B"; leaf "!a"]];
     "!B" := [[leaf "!b"; space "!A"]] ]}.

(** The root lists rooms [!r2], [!r3] and [!r4]; the monitor knows [!r1],
    [!r2] and [!r3]. *)
Definition moved : server :=
  single [("!root", [leaf "!r2"; leaf "!r3"; leaf "!r4"])].

Definition knowing123 : RoomMonitor :=
  set_lastCheckedRooms ["!r1"; "!r2"; "!r3"] fresh.

Definition threeRooms : list room := [plain "!r1"; plain "!r2"; plain "!r3"].

(** The monitor and the world after the baseline cycle over [three]. *)
Definition baselined : option result * RoomMonitor * world :=
  completed false threeRooms fresh (world0 three) (JObj []).

(** The system once [fresh] has started over the empty hierarchy [none]. *)
Definition startedSys : Loop.sys :=
  let m := set_running true (Some 300000%N) fresh in
  {| Loop.mon := m;
     Loop.wld := saveState m (world0 none);
     Loop.inflight := [];
     Loop.returned := [] |}.

End Example.

(** ** Further definitions: values, worlds and walks beside the claims *)

Module More.

Import Hierarchy Monitor.

(** A value that is not an object: an assignment to one of its properties
    throws in strict mode. *)
Definition primitive (v : json) : bool :=
  match v with
  | JObj _ | JArr _ => false
  | _ => true
  end.

(** A room whose name [checkForNewRooms] records in [roomNames]. *)
Definition named (r : room) : bool :=
  Js.truthy (name r) && negb (bool_decide (name r = Some (room_id r))).

Definition set_writable (b : bool) (w : world) : world :=
  {| remote := remote w; disk := disk w; disk_writable := b;
     outbox := outbox w; clock := clock w |}.

(** The pages of the listing of [spaceId] that are read from token [tok] on
    before a request fails. *)
Inductive pagesCut (srv : server) (spaceId : string)
  : option string → list response → Prop :=
| cut_here tok :
    srv spaceId tok = None →
    pagesCut srv spaceId tok []
| cut_later tok resp rest :
    srv spaceId tok = Some resp →
    Js.truthy (next_batch resp) = true →
    pagesCut srv spaceId (next_batch resp) rest →
    pagesCut srv spaceId tok (resp :: rest).

(** The leaf records that the listings of some spaces of a graph hold. *)
Definition listed (g : Graph.graph) (spaces : list string) : list room :=
  spaces ≫= (λ v, leaves (Graph.entries g v)).

(** A leaf room that carries a display name. *)
Definition namedLeaf (id nm : string) : child :=
  {| c_room_id := id; c_room_type := None; c_name := Some nm;
     c_canonical_alias := None; c_topic := None;
     c_num_joined_members := None |}.

(** The root lists one room named [Alpha]. *)
Definition alpha : server :=
  Example.single [("!root", [namedLeaf "!r1" "Alpha"])].

(** A state file whose [roomNames] is a string. *)
Definition oddNames : file :=
  Stored (JObj [("rooms", JArr []); ("roomNames", JStr "x")]).

(** A room with every field set, and one whose fields are empty. *)
Definition lounge : child :=
  {| c_room_id := "!a"; c_room_type := None; c_name := Some "Lounge";
     c_canonical_alias := Some "#lounge:example.org";
     c_topic := Some "Welcome"; c_num_joined_members := Some 12 |}.

Definition bare (id : string) : child :=
  {| c_room_id := id; c_room_type := Some ""; c_name := Some "";
     c_canonical_alias := Some ""; c_topic := Some "";
     c_num_joined_members := Some 0 |}.

(** The first page of the root answers and names a second page; the request
    for the second page fails. *)
Definition halfPaged : server := λ s tok,
  if String.eqb s "!root"
  then match tok with
       | None => Some {| rooms := [lounge; bare "!b"; Example.space "!root"];
                         next_batch := Some "t" |}
       | Some _ => None
       end
  else None.

(** The listing of the root comes in three pages; the second names a
    sub-space, whose listing is one page. *)
Definition catalogue : gmap string (list (list child)) :=
  {[ "!root" := [[lounge]; [Example.space "!S"; bare "!b"];
                 [Example.leaf "!c"]];
     "!S" := [[namedLeaf "!s1" "Annex"]] ]}.

Definition cataloguePages : list response :=
  [ {| rooms := [lounge]; next_batch := Some "t" |};
    {| rooms := [Example.space "!S"; bare "!b"]; next_batch := Some "tt" |};
    {| rooms := [Example.leaf "!c"]; next_batch := None |} ].

(** The root and its sub-space list each other, and both list room [!r]. *)
Definition twice : gmap string (list (list child)) :=
  {[ "!root" := [[Example.leaf "!r"; Example.space "!B"]];
     "!B" := [[Example.space "!root"; Example.leaf "!r"]] ]}.

End More.

(** ** More of the class of [room-monitor.js] *)

Module StateWalk.

Import StateApi.

(** What the state of space [v] contributes when it is requested: its
    rooms and its sub-spaces; nothing when the request fails or the
    response is falsy. *)
Definition roomsAt (srv : server) (v : string) : list room :=
  match srv v with
  | Some (Some es) => roomsOf es
  | _ => []
  end.

Definition subsAt (srv : server) (v : string) : list room :=
  match srv v with
  | Some (Some es) => subspacesOf es
  | _ => []
  end.

(** From [V] to [V']: every sub-space that the state of a newly visited
    space names is visited too. *)
Definition closedOver (srv : server) (V V' : gset string) : Prop :=
  V ⊆ V'
  ∧ ∀ v sub, v ∈ V' → v ∉ V → sub ∈ subsAt srv v → room_id sub ∈ V'.

(** The state events of the hierarchy of [Example.brokenState]. *)
Definition brokenGraph : gmap string (list event) :=
  {[ "!root" := [Example.childEvent "!X" (Some "m.space");
                 Example.childEvent "!Y" (Some "m.space")];
     "!Y" := [Example.childEvent "!r5" None; Example.childEvent "!r6" None;
              Example.childEvent "!root" (Some "m.space")] ]}.

End StateWalk.


Module StateMonitor.

(** A state event as [getRoomInfo] and [fetchRoomsInSpace] read it: the
    fields of [StateApi.event] and three more of [content]. *)
Record stateEvent := {
  base : StateApi.event;
  content_alias : option string;
  content_topic : option string;
  content_membership : option string
}.

(** [authedRequest] on the state of a room or space: the outer [None] is a
    rejection, the inner one a falsy response. *)
Definition server := string → option (option (list stateEvent)).

(** The same server as the walk reads it. *)
Definition spaces (srv : server) : StateApi.server := λ s,
  match srv s with
  | Some (Some es) => Some (Some (base <$> es))
  | Some None => Some None
  | None => None
  end.

(** The object that [getRoomInfo] returns. *)
Record roomInfo := {
  i_room_id : string;
  i_name : string;
  canonical_alias : option string;
  description : string;
  joined_member_count : nat
}.

Definition isType (ty : string) (e : stateEvent) : bool :=
  String.eqb (StateApi.type (base e)) ty.

Definition isJoin (e : stateEvent) : bool :=
  isType "m.room.member" e
  && bool_decide (content_membership e = Some "join").

(** The body of the loop over the state events. *)
Definition observe (info : roomInfo) (e : stateEvent) : roomInfo :=
  if isType "m.room.name" e && Js.truthy (StateApi.content_name (base e))
  then {| i_room_id := i_room_id info;
          i_name := default "" (StateApi.content_name (base e));
          canonical_alias := canonical_alias info;
          description := description info;
          joined_member_count := joined_member_count info |}
  else if isType "m.room.canonical_alias" e && Js.truthy (content_alias e)
  then {| i_room_id := i_room_id info; i_name := i_name info;
          canonical_alias := content_alias e;
          description := description info;
          joined_member_count := joined_member_count info |}
  else if isType "m.room.topic" e && Js.truthy (content_topic e)
  then {| i_room_id := i_room_id info; i_name := i_name info;
          canonical_alias := canonical_alias info;
          description := default "" (content_topic e);
          joined_member_count := joined_member_count info |}
  else if isJoin e
  then {| i_room_id := i_room_id info; i_name := i_name info;
          canonical_alias := canonical_alias info;
          description := description info;
          joined_member_count := S (joined_member_count info) |}
  else info.

Definition blank (roomId : string) : roomInfo :=
  {| i_room_id := roomId; i_name := roomId; canonical_alias := None;
     description := ""; joined_member_count := 0 |}.

(** [getRoomInfo]: [None] is [null], returned for a falsy response and from
    the [catch]. *)
Definition getRoomInfo (srv : server) (roomId : string) : option roomInfo :=
  match srv roomId with
  | Some (Some es) => Some (foldl observe (blank roomId) es)
  | _ => None
  end.

(** The message of [sendSimpleRoomNotification]; its two texts are built
    from these values alone. *)
Record simpleMessage := {
  sm_roomId : string;
  sm_roomName : string;
  sm_roomDescription : string;
  sm_roomLink : string
}.

Definition simpleNotification (srv : server) (roomId : string)
  : simpleMessage :=
  let roomDetails := getRoomInfo srv roomId in
  let roomName := match roomDetails with
                  | Some d => Js.or_str (Some (i_name d)) roomId
                  | None => roomId
                  end in
  let roomAlias := roomDetails ≫= canonical_alias in
  let roomDescription := match roomDetails with
                         | Some d => description d
                         | None => ""
                         end in
  {| sm_roomId := roomId;
     sm_roomName := roomName;
     sm_roomDescription := roomDescription;
     sm_roomLink :=
       "https://matrix.to/#/" +:+
       (if Js.truthy roomAlias then default "" roomAlias else roomId) |}.

Record RoomMonitor := {
  observedSpace : option string;
  notificationRoom : option string;
  lastCheckedRooms : list string;
  isRunning : bool
}.

Record world := {
  remote : server;
  disk : file;
  disk_writable : bool;
  outbox : list (option string * simpleMessage);
  clock : string
}.

Definition set_lastCheckedRooms (s : list string) (m : RoomMonitor) :=
  {| observedSpace := observedSpace m; notificationRoom := notificationRoom m;
     lastCheckedRooms := s; isRunning := isRunning m |}.

Definition set_disk (f : file) (w : world) :=
  {| remote := remote w; disk := f; disk_writable := disk_writable w;
     outbox := outbox w; clock := clock w |}.

Definition set_outbox (o : list (option string * simpleMessage)) (w : world) :=
  {| remote := remote w; disk := disk w; disk_writable := disk_writable w;
     outbox := o; clock := clock w |}.

(** [sendSimpleRoomNotification]: whatever [getRoomInfo] and [sendEvent]
    do, the method calls [sendEvent] once and returns normally. *)
Definition sendSimpleRoomNotification (roomId : string) (m : RoomMonitor)
    (w : world) : world :=
  set_outbox (outbox w ++ [(notificationRoom m,
                            simpleNotification (remote w) roomId)]) w.

Definition snapshot (m : RoomMonitor) (w : world) : json :=
  JObj ([("rooms", JArr (JStr <$> lastCheckedRooms m));
         ("lastUpdated", JStr (clock w))] ++
        match observedSpace m with
        | Some s => [("observedSpace", JStr s)]
        | None => []
        end).

Definition saveState (m : RoomMonitor) (w : world) : world :=
  if disk_writable w then set_disk (Stored (snapshot m w)) w else w.

Definition configured (m : RoomMonitor) : bool :=
  Js.truthy (observedSpace m) && Js.truthy (notificationRoom m).

(** The ids of the current set that the known set lacks, in the order of
    the set. *)
Definition newRoomIdsOf (known current : list string) : list string :=
  filter (λ id, Js.has known id = false) current.

Definition notifyAll (ids : list string) (m : RoomMonitor) (w : world)
  : world :=
  foldl (λ w id, sendSimpleRoomNotification id m w) w ids.

(** [checkForNewRooms] of [room-monitor.js]; nothing inside its [try] can
    throw, so its [catch] is never entered. *)
Definition checkForNewRooms (fuel : nat) (shouldAlert : bool)
    (m : RoomMonitor) (w : world)
  : option (option Monitor.result * RoomMonitor * world) :=
  if negb (configured m) then Some (None, m, w)
  else
    '(rs, _) ← StateApi.fetchRoomsInSpace (spaces (remote w)) fuel
                 (default "" (observedSpace m)) StateApi.start;
    let currentRoomIds := Js.SetOf (StateApi.room_id <$> rs) in
    let newRoomIds := newRoomIdsOf (lastCheckedRooms m) currentRoomIds in
    let w1 := if shouldAlert then notifyAll newRoomIds m w else w in
    let m2 := set_lastCheckedRooms currentRoomIds m in
    let w2 := saveState m2 w1 in
    Some (Some {| Monitor.r_checked := length currentRoomIds;
                  Monitor.r_new := length newRoomIds;
                  Monitor.r_error := false;
                  Monitor.r_timestamp := clock w2 |}, m2, w2).

(** The truthy names that the [m.room.name] events carry, in order. *)
Definition names (es : list stateEvent) : list string :=
  omap (λ e, if isType "m.room.name" e
                && Js.truthy (StateApi.content_name (base e))
             then StateApi.content_name (base e) else None) es.

(** A space whose two sub-spaces both name room [!r]; the state of [!r]
    cannot be read. *)
Definition child (id : string) (ty : option string) : stateEvent :=
  {| base := Example.childEvent id ty; content_alias := None;
     content_topic := None; content_membership := None |}.

Definition sharedState : server := λ s,
  if String.eqb s "!root"
  then Some (Some [child "!A" (Some "m.space"); child "!B" (Some "m.space")])
  else if String.eqb s "!A" then Some (Some [child "!r" None])
  else if String.eqb s "!B" then Some (Some [child "!r" None])
  else None.

Definition fresh : RoomMonitor :=
  {| observedSpace := Some "!root"; notificationRoom := Some "!notif";
     lastCheckedRooms := []; isRunning := true |}.

Definition world0 (srv : server) : world :=
  {| remote := srv; disk := Missing; disk_writable := true;
     outbox := []; clock := "2026-01-01T00:00:00.000Z" |}.

(** The state of a room with a name, a later name, a topic and two joined
    members among three member events. *)
Definition event (ty : string) (nm al tp mb : option string) : stateEvent :=
  {| base := {| StateApi.type := ty; StateApi.state_key := "";
                StateApi.content_name := nm;
                StateApi.content_room_type := None |};
     content_alias := al; content_topic := tp; content_membership := mb |}.

Definition lobby : server := λ s,
  if String.eqb s "!lobby"
  then Some (Some [event "m.room.name" (Some "Lobby") None None None;
                   event "m.room.member" None None None (Some "join");
                   event "m.room.member" None None None (Some "leave");
                   event "m.room.name" (Some "Main lobby") None None None;
                   event "m.room.member" None None None (Some "join")])
  else None.

End StateMonitor.

(** ** [startMonitoring] and [stopMonitoring] on the event loop *)

Module Startup.

Import Hierarchy Monitor.

(** Where a call of [startMonitoring] can be suspended: at the [await] on
    [loadState], with what [existsSync] answered when the call was made,
    and at the [await] on the first cycle, which is suspended at one of its
    own [await]s or has returned. *)
Inductive starting :=
| AwaitLoad (existed : bool)
| AwaitCheck (p : Loop.progress).

(** The monitor and what surrounds it. A timer is known by its handle, the
    number of [setInterval] calls before its own; [held] is the handle that
    [this.monitoringInterval] holds, which is an object and so truthy. *)
Record sys := {
  mon : RoomMonitor;
  wld : world;
  starts : list starting;      (* calls of startMonitoring not yet returned *)
  inflight : list Loop.task;   (* cycles begun by a timer, not yet returned *)
  live : list nat;             (* the timers that were not cleared *)
  created : nat;               (* calls of setInterval so far *)
  held : option nat
}.

Inductive event :=
| CallStart                    (* startMonitoring is called *)
| ResumeStart (i : nat)        (* what start [i] awaits is settled *)
| Fire (h : nat)               (* timer [h] fires *)
| ResumeCycle (i : nat)        (* what cycle [i] awaits is settled *)
| CallStop.                    (* stopMonitoring is called *)

Definition existsSync (f : file) : bool :=
  match f with
  | Missing => false
  | _ => true
  end.

(** The end of [startMonitoring]: [setInterval], and the handle stored. *)
Definition install (i : nat) (s : sys) : sys :=
  {| mon := set_running (isRunning (mon s)) (Some (interval (mon s))) (mon s);
     wld := wld s;
     starts := delete i (starts s);
     inflight := inflight s;
     live := live s ++ [created s];
     created := S (created s);
     held := Some (created s) |}.

Definition step (fuel : nat) (e : event) (s : sys) : option sys :=
  match e with
  | CallStart =>
      if isRunning (mon s) then Some s
      else if negb (configured (mon s)) then Some s
      else
        Some {| mon := set_running true (monitoringInterval (mon s)) (mon s);
                wld := wld s;
                starts := starts s ++ [AwaitLoad (existsSync (disk (wld s)))];
                inflight := inflight s; live := live s;
                created := created s; held := held s |}
  | ResumeStart i =>
      t ← starts s !! i;
      match t with
      | AwaitLoad existed =>
          let '(hasExistingState, m) :=
            if existed then loadState (mon s) (wld s) else (false, mon s) in
          Some {| mon := m; wld := wld s;
                  starts :=
                    <[i := AwaitCheck (Loop.spawn hasExistingState m)]>
                      (starts s);
                  inflight := inflight s; live := live s;
                  created := created s; held := held s |}
      | AwaitCheck (Loop.Suspended t) =>
          '(p, m, w) ← Loop.resume fuel t (mon s) (wld s);
          Some {| mon := m; wld := w;
                  starts := <[i := AwaitCheck p]> (starts s);
                  inflight := inflight s; live := live s;
                  created := created s; held := held s |}
      | AwaitCheck (Loop.Finished _) => Some (install i s)
      end
  | Fire h =>
      if bool_decide (h ∈ live s) then
        if isRunning (mon s) then
          match Loop.spawn true (mon s) with
          | Loop.Suspended t =>
              Some {| mon := mon s; wld := wld s; starts := starts s;
                      inflight := inflight s ++ [t]; live := live s;
                      created := created s; held := held s |}
          | Loop.Finished _ => Some s
          end
        else Some s
      else None
  | ResumeCycle i =>
      t ← inflight s !! i;
      '(p, m, w) ← Loop.resume fuel t (mon s) (wld s);
      Some {| mon := m; wld := w; starts := starts s;
              inflight := match p with
                          | Loop.Suspended t' => <[i := t']> (inflight s)
                          | Loop.Finished _ => delete i (inflight s)
                          end;
              live := live s; created := created s; held := held s |}
  | CallStop =>
      Some {| mon := stopMonitoring (mon s); wld := wld s;
              starts := starts s; inflight := inflight s;
              live := match held s with
                      | Some h => filter (λ x, x ≠ h) (live s)
                      | None => live s
                      end;
              created := created s; held := None |}
  end.

Fixpoint run (fuel : nat) (es : list event) (s : sys) : option sys :=
  match es with
  | [] => Some s
  | e :: rest => s' ← step fuel e s; run fuel rest s'
  end.

(** A constructed monitor before anything was called. *)
Definition idle (m : RoomMonitor) (w : world) : sys :=
  {| mon := m; wld := w; starts := []; inflight := []; live := [];
     created := 0; held := None |}.

End Startup.
(** * Facts *)

(** ** Sets in insertion order *)

Section js_sets.
Implicit Types (s l : list string) (x y : string).

Lemma has_true s x : Js.has s x = true ↔ x ∈ s.
Proof. unfold Js.has. by rewrite bool_decide_eq_true. Qed.

Lemma has_false s x : Js.has s x = false ↔ x ∉ s.
Proof. unfold Js.has. by rewrite bool_decide_eq_false. Qed.

Lemma elem_of_add s x y : y ∈ Js.add s x ↔ y ∈ s ∨ y = x.
Proof.
  unfold Js.add. destruct (Js.has s x) eqn:E.
  - apply has_true in E. split; [by left | intros [?| ->]; done].
  - rewrite elem_of_app, list_elem_of_singleton. done.
Qed.

Lemma NoDup_add s x : NoDup s → NoDup (Js.add s x).
Proof.
  intros Hs. unfold Js.add. destruct (Js.has s x) eqn:E; [done|].
  apply has_false in E. apply NoDup_app. split_and!; [done| |apply NoDup_singleton].
  intros y Hy ->%list_elem_of_singleton. done.
Qed.

Lemma elem_of_foldl_add l s y : y ∈ foldl Js.add s l ↔ y ∈ s ∨ y ∈ l.
Proof.
  revert s. induction l as [|x l IH]; intros s; simpl.
  - rewrite elem_of_nil. tauto.
  - rewrite IH, elem_of_add, elem_of_cons. tauto.
Qed.

Lemma NoDup_foldl_add l s : NoDup s → NoDup (foldl Js.add s l).
Proof.
  revert s. induction l as [|x l IH]; intros s Hs; simpl; [done|].
  by apply IH, NoDup_add.
Qed.

Lemma elem_of_SetOf l y : y ∈ Js.SetOf l ↔ y ∈ l.
Proof. unfold Js.SetOf. rewrite elem_of_foldl_add, elem_of_nil. tauto. Qed.

Lemma NoDup_SetOf l : NoDup (Js.SetOf l).
Proof. apply NoDup_foldl_add, NoDup_nil_2. Qed.

End js_sets.

(** ** One cycle, run alone *)

Section cycle.
Import Hierarchy Monitor.
Implicit Types (m : RoomMonitor) (w : world) (rs : list room).

Lemma notifyAll_outbox l m w :
  outbox (notifyAll l m w) = outbox w ++ sent m l.
Proof.
  unfold notifyAll, sent. revert w.
  induction l as [|r l IH]; intros w; simpl.
  - by rewrite app_nil_r.
  - rewrite IH. simpl. by rewrite <- app_assoc.
Qed.

Lemma notifyAll_rest l m w :
  remote (notifyAll l m w) = remote w
  ∧ disk (notifyAll l m w) = disk w
  ∧ disk_writable (notifyAll l m w) = disk_writable w
  ∧ clock (notifyAll l m w) = clock w.
Proof.
  unfold notifyAll. revert w.
  induction l as [|r l IH]; intros w; simpl; [done|].
  destruct (IH (sendEnhancedRoomNotification r m w)) as (-> & -> & -> & ->).
  done.
Qed.

Lemma saveState_outbox m w : outbox (saveState m w) = outbox w.
Proof. unfold saveState. by destruct (disk_writable w). Qed.

Lemma saveState_writable m w :
  disk_writable w = true →
  persistedRooms (disk (saveState m w))
  = Some (JArr (JStr <$> lastCheckedRooms m)).
Proof. intros E. unfold saveState. rewrite E. reflexivity. Qed.

(** Names are recorded without a throw on an object, which is what the
    constructor and [saveState] leave in [roomNames]. *)
Lemma recordNames_object l fs :
  ∃ fs', recordNames l (JObj fs) = (JObj fs', true).
Proof.
  revert fs. induction l as [|r l IH]; intros fs; simpl; [by eexists|].
  destruct (_ && _); [apply IH | apply IH].
Qed.

Lemma recordNames_nil names : recordNames [] names = (names, true).
Proof. reflexivity. Qed.

Lemma checkForNewRooms_unfold fuel shouldAlert m w rs :
  configured m = true →
  fetchRoomsInSpace (remote w) fuel (default "" (observedSpace m)) ∅
    = Some rs →
  checkForNewRooms fuel shouldAlert m w =
    Some (match recordNames (newRoomsOf (lastCheckedRooms m) rs)
                  (roomNames m) with
          | (names, true) => completed shouldAlert rs m w names
          | (names, false) => aborted m w names
          end).
Proof.
  intros Hc Hf. unfold checkForNewRooms. rewrite Hc, Hf. simpl.
  by destruct (recordNames _ _) as [names []].
Qed.

Lemma completed_outbox shouldAlert rs m w names :
  outbox (completed shouldAlert rs m w names).2
  = outbox w ++ (if shouldAlert
                 then sent m (newRoomsOf (lastCheckedRooms m) rs) else []).
Proof.
  unfold completed. simpl. rewrite saveState_outbox.
  destruct shouldAlert; simpl; [|by rewrite app_nil_r].
  case_bool_decide as Hlen.
  - by rewrite notifyAll_outbox.
  - destruct (newRoomsOf _ _); simpl in *; [by rewrite app_nil_r | lia].
Qed.

Lemma newRoomsOf_elem known rs r :
  r ∈ newRoomsOf known rs ↔ r ∈ rs ∧ room_id r ∉ known.
Proof.
  unfold newRoomsOf. rewrite list_elem_of_filter, has_false. tauto.
Qed.

Lemma newRoomsOf_known rs :
  newRoomsOf (currentRoomIdsOf rs) rs = [].
Proof.
  apply elem_of_nil_inv. intros r [Hr Hn]%newRoomsOf_elem.
  apply Hn. unfold currentRoomIdsOf. apply elem_of_SetOf.
  by apply list_elem_of_fmap_2.
Qed.

Lemma newRoomsOf_nil rs : newRoomsOf [] rs = rs.
Proof.
  unfold newRoomsOf. induction rs as [|r rs IH]; [done|].
  rewrite filter_cons_True; [by rewrite IH|]. apply has_false, not_elem_of_nil.
Qed.

End cycle.

(** ** The diff, the baseline run and the state file *)

Section monitor_claims.
Import Hierarchy Monitor.
Implicit Types (m : RoomMonitor) (w : world) (rs : list room).

Lemma newRoomsOf_spec known rs :
  newRoomsOf known rs = ChangeDetector.newRooms rs (list_to_set known).
Proof.
  unfold newRoomsOf. induction rs as [|r rs IH]; [done|]. simpl.
  destruct (decide (room_id r ∈ list_to_set known)) as [Hin|Hout].
  - rewrite filter_cons_False; [done|].
    rewrite elem_of_list_to_set in Hin. apply has_true in Hin. congruence.
  - rewrite filter_cons_True; [by rewrite IH|].
    rewrite elem_of_list_to_set in Hout. by apply has_false.
Qed.

Lemma currentRoomIdsOf_spec rs :
  list_to_set (currentRoomIdsOf rs) = ChangeDetector.currentIds rs.
Proof.
  unfold currentRoomIdsOf, ChangeDetector.currentIds.
  apply set_eq. intros x.
  by rewrite !elem_of_list_to_set, elem_of_SetOf.
Qed.

(** C6: the diff of [checkForNewRooms] depends on the fetched rooms and the
    known ids only. [currentRoomIds] holds exactly the room ids of the
    fetched rooms, each once; [newRooms] is the subsequence of the fetched
    rooms whose id is not known, in the order of discovery; and the cycle
    that completes stores and counts exactly these. *)
Theorem diff_pure_ordered fuel shouldAlert m w rs :
  configured m = true →
  fetchRoomsInSpace (remote w) fuel (default "" (observedSpace m)) ∅
    = Some rs →
  list_to_set (currentRoomIdsOf rs) = ChangeDetector.currentIds rs
  ∧ NoDup (currentRoomIdsOf rs)
  ∧ (∀ id, id ∈ currentRoomIdsOf rs ↔ ∃ r, r ∈ rs ∧ room_id r = id)
  ∧ newRoomsOf (lastCheckedRooms m) rs
    = ChangeDetector.newRooms rs (list_to_set (lastCheckedRooms m))
  ∧ newRoomsOf (lastCheckedRooms m) rs `sublist_of` rs
  ∧ (∀ r, r ∈ newRoomsOf (lastCheckedRooms m) rs
          ↔ r ∈ rs ∧ room_id r ∉ lastCheckedRooms m)
  ∧ ∃ res m' w',
      checkForNewRooms fuel shouldAlert m w = Some (Some res, m', w')
      ∧ (r_error res = false →
         lastCheckedRooms m' = currentRoomIdsOf rs
         ∧ r_checked res = length (currentRoomIdsOf rs)
         ∧ r_new res = length (newRoomsOf (lastCheckedRooms m) rs)).
Proof.
  intros Hc Hf. split_and!.
  - apply currentRoomIdsOf_spec.
  - apply NoDup_SetOf.
  - intros id. unfold currentRoomIdsOf.
    rewrite elem_of_SetOf, list_elem_of_fmap.
    split; [intros (r & -> & Hr) | intros (r & Hr & <-)]; eauto.
  - apply newRoomsOf_spec.
  - apply sublist_filter.
  - apply newRoomsOf_elem.
  - rewrite (checkForNewRooms_unfold _ _ _ _ rs Hc Hf).
    destruct (recordNames _ _) as [names []].
    + do 3 eexists. split; [reflexivity|]. done.
    + do 3 eexists. split; [reflexivity|]. done.
Qed.

Lemma diff_pure_ordered_witness :
  newRoomsOf ["!r1"; "!r2"; "!r3"]
    [Example.plain "!r2"; Example.plain "!r3"; Example.plain "!r4"]
  = [Example.plain "!r4"]
  ∧ list_to_set
      (currentRoomIdsOf
         [Example.plain "!r2"; Example.plain "!r3"; Example.plain "!r4"])
    = ChangeDetector.currentIds
        [Example.plain "!r2"; Example.plain "!r3"; Example.plain "!r4"]
  ∧ NoDup (currentRoomIdsOf
             [Example.plain "!r2"; Example.plain "!r3"; Example.plain "!r4"])
  ∧ (∀ id, id ∈ currentRoomIdsOf
                  [Example.plain "!r2"; Example.plain "!r3";
                   Example.plain "!r4"]
           ↔ ∃ r, r ∈ [Example.plain "!r2"; Example.plain "!r3";
                       Example.plain "!r4"] ∧ room_id r = id)
  ∧ newRoomsOf ["!r1"; "!r2"; "!r3"]
      [Example.plain "!r2"; Example.plain "!r3"; Example.plain "!r4"]
    = ChangeDetector.newRooms
        [Example.plain "!r2"; Example.plain "!r3"; Example.plain "!r4"]
        (list_to_set ["!r1"; "!r2"; "!r3"])
  ∧ newRoomsOf ["!r1"; "!r2"; "!r3"]
      [Example.plain "!r2"; Example.plain "!r3"; Example.plain "!r4"]
    `sublist_of`
      [Example.plain "!r2"; Example.plain "!r3"; Example.plain "!r4"]
  ∧ (∀ r, r ∈ newRoomsOf ["!r1"; "!r2"; "!r3"]
                [Example.plain "!r2"; Example.plain "!r3";
                 Example.plain "!r4"]
          ↔ r ∈ [Example.plain "!r2"; Example.plain "!r3";
                 Example.plain "!r4"]
            ∧ room_id r ∉ ["!r1"; "!r2"; "!r3"])
  ∧ ∃ res m' w',
      checkForNewRooms 3 true Example.knowing123
        (Example.world0 Example.moved) = Some (Some res, m', w')
      ∧ (r_error res = false →
         lastCheckedRooms m'
         = currentRoomIdsOf
             [Example.plain "!r2"; Example.plain "!r3"; Example.plain "!r4"]
         ∧ r_checked res
           = length (currentRoomIdsOf
                       [Example.plain "!r2"; Example.plain "!r3";
                        Example.plain "!r4"])
         ∧ r_new res
           = length (newRoomsOf ["!r1"; "!r2"; "!r3"]
                       [Example.plain "!r2"; Example.plain "!r3";
                        Example.plain "!r4"])).
Proof.
  split; [reflexivity|].
  exact (diff_pure_ordered 3 true Example.knowing123
           (Example.world0 Example.moved)
           [Example.plain "!r2"; Example.plain "!r3"; Example.plain "!r4"]
           eq_refl eq_refl).
Defined.

(** C7: a constructed monitor that starts without a state file sends
    nothing in its first cycle and leaves, in memory and in the file, the
    ids of all the rooms it fetched. *)
Theorem baseline_suppression fuel space notif ivl w rs :
  configured (constructor (Some space) (Some notif) ivl) = true →
  disk w = Missing →
  disk_writable w = true →
  fetchRoomsInSpace (remote w) fuel space ∅ = Some rs →
  ∃ m' w',
    startMonitoring fuel (constructor (Some space) (Some notif) ivl) w
      = Some (m', w')
    ∧ outbox w' = outbox w
    ∧ lastCheckedRooms m' = currentRoomIdsOf rs
    ∧ persistedRooms (disk w') = Some (JArr (JStr <$> currentRoomIdsOf rs))
    ∧ isRunning m' = true.
Proof.
  intros Hc Hd Hw Hf.
  unfold startMonitoring. rewrite Hc. simpl isRunning. cbn iota.
  unfold loadState. rewrite Hd. cbn iota.
  set (m1 := set_running true _ _).
  rewrite (checkForNewRooms_unfold fuel false m1 w rs Hc Hf).
  destruct (recordNames_object (newRoomsOf (lastCheckedRooms m1) rs) [])
    as [fs Hfs].
  change (roomNames m1) with (JObj []). rewrite Hfs.
  do 2 eexists. split; [reflexivity|].
  change (false && _) with false. cbv iota. split_and!.
  - apply saveState_outbox.
  - reflexivity.
  - by apply saveState_writable.
  - reflexivity.
Qed.

Lemma baseline_suppression_witness :
  ∃ m' w',
    startMonitoring 3 Example.fresh (Example.world0 Example.three)
      = Some (m', w')
    ∧ outbox w' = []
    ∧ lastCheckedRooms m' = ["!r1"; "!r2"; "!r3"]
    ∧ persistedRooms (disk w')
      = Some (JArr [JStr "!r1"; JStr "!r2"; JStr "!r3"])
    ∧ isRunning m' = true.
Proof.
  exact (baseline_suppression 3 "!root" "!notif" None
           (Example.world0 Example.three)
           [Example.plain "!r1"; Example.plain "!r2"; Example.plain "!r3"]
           eq_refl eq_refl eq_refl eq_refl).
Defined.

End monitor_claims.

Section state_claims.
Import Hierarchy Monitor.
Implicit Types (m : RoomMonitor) (w : world) (rs : list room).

(** A load that reports [false] has not touched the monitor. *)
Lemma loadState_false m w : (loadState m w).1 = false → (loadState m w).2 = m.
Proof.
  unfold loadState. destruct (disk w) as [| | |state]; try done.
  destruct (prop "rooms" state) as [o|]; [|done].
  by destruct (toSet _).
Qed.

(** A cycle that does not alert sends nothing. *)
Lemma checkForNewRooms_silent fuel m w res m' w' :
  checkForNewRooms fuel false m w = Some (res, m', w') → outbox w' = outbox w.
Proof.
  unfold checkForNewRooms. destruct (negb (configured m)); [naive_solver|].
  destruct (fetchRoomsInSpace _ _ _ _) as [rs|]; [simpl|done].
  destruct (recordNames _ _) as [names []]; intros [= <- <- <-]; [|done].
  apply saveState_outbox.
Qed.

(** C9: when the state file is missing, cannot be read or does not parse,
    [loadState] returns [false] without raising and leaves the monitor as
    it was; a constructed monitor thus keeps its empty known set, and
    [startMonitoring] goes on with a first cycle that does not alert. *)
Theorem loadState_absent m w :
  disk w = Missing ∨ disk w = Unreadable ∨ disk w = Garbage →
  loadState m w = (false, m)
  ∧ ∀ space notif ivl fuel,
      lastCheckedRooms (loadState (constructor space notif ivl) w).2 = []
      ∧ startMonitoring fuel (constructor space notif ivl) w
        = (if configured (constructor space notif ivl)
           then '(_, m3, w3) ←
                  checkForNewRooms fuel false
                    (set_running true None (constructor space notif ivl)) w;
                Some (set_running (isRunning m3) (Some (interval m3)) m3, w3)
           else Some (constructor space notif ivl, w))
      ∧ ∀ m' w',
          startMonitoring fuel (constructor space notif ivl) w
            = Some (m', w') →
          outbox w' = outbox w.
Proof.
  intros Hd.
  assert (∀ m0, loadState m0 w = (false, m0)) as Hload.
  { intros m0. unfold loadState. by destruct Hd as [-> | [-> | ->]]. }
  split; [apply Hload|]. intros space notif ivl fuel.
  assert (startMonitoring fuel (constructor space notif ivl) w
          = (if configured (constructor space notif ivl)
             then '(_, m3, w3) ←
                    checkForNewRooms fuel false
                      (set_running true None (constructor space notif ivl)) w;
                  Some (set_running (isRunning m3) (Some (interval m3)) m3, w3)
             else Some (constructor space notif ivl, w))) as Hstart.
  { unfold startMonitoring. simpl isRunning. cbv iota.
    destruct (configured _); [|done]. simpl negb. cbv iota.
    by rewrite Hload. }
  split_and!.
  - by rewrite Hload.
  - exact Hstart.
  - intros m' w'. rewrite Hstart. destruct (configured _); [|naive_solver].
    destruct (checkForNewRooms _ _ _ _) as [[[res m3] w3]|] eqn:E; [|done].
    simpl. intros [= <- <-]. by eapply checkForNewRooms_silent.
Qed.

Lemma loadState_absent_witness :
  loadState Example.fresh
    (set_disk Garbage (Example.world0 Example.three))
  = (false, Example.fresh).
Proof.
  exact (proj1 (loadState_absent Example.fresh
                  (set_disk Garbage (Example.world0 Example.three))
                  (or_intror (or_intror eq_refl)))).
Defined.

(** A root that does not answer its first request yields no room. *)
Lemma unreachable_root srv fuel root :
  srv root None = None →
  fetchRoomsInSpace srv (S (S fuel)) root ∅ = Some [].
Proof.
  intros E. unfold fetchRoomsInSpace, traverse. simpl.
  rewrite bool_decide_eq_false_2 by set_solver. by rewrite E.
Qed.

(** C10: when the walk returns no room (as it does when the first request
    on the root fails), the cycle replaces the known set by the empty set
    and writes it, whatever was known; the next cycle that completes
    notifies every room it fetches. *)
Theorem empty_fetch_forgets fuel shouldAlert m w :
  configured m = true →
  fetchRoomsInSpace (remote w) fuel (default "" (observedSpace m)) ∅
    = Some []
  ∨ (remote w (default "" (observedSpace m)) None = None ∧ (2 ≤ fuel)%nat) →
  ∃ res m' w',
    checkForNewRooms fuel shouldAlert m w = Some (Some res, m', w')
    ∧ r_error res = false
    ∧ lastCheckedRooms m' = []
    ∧ outbox w' = outbox w
    ∧ (disk_writable w = true →
       persistedRooms (disk w') = Some (JArr []))
    ∧ ∀ fuel' w2 rs,
        fetchRoomsInSpace (remote w2) fuel' (default "" (observedSpace m)) ∅
          = Some rs →
        ∃ res2 m2 w3,
          checkForNewRooms fuel' true m' w2 = Some (Some res2, m2, w3)
          ∧ (r_error res2 = false →
             outbox w3 = outbox w2 ++ sent m rs
             ∧ r_new res2 = length rs).
Proof.
  intros Hc Hf.
  assert (fetchRoomsInSpace (remote w) fuel
            (default "" (observedSpace m)) ∅ = Some []) as Hf'.
  { destruct Hf as [Hf|[Hf Hfuel]]; [done|].
    destruct fuel as [|[|fuel]]; [lia..|]. by apply unreachable_root. }
  rewrite (checkForNewRooms_unfold _ _ _ _ [] Hc Hf').
  change (newRoomsOf (lastCheckedRooms m) []) with (@nil room).
  rewrite recordNames_nil.
  do 3 eexists. split; [reflexivity|].
  split_and!; try done.
  - refine (eq_trans (completed_outbox shouldAlert [] m w (roomNames m)) _).
    destruct shouldAlert; by rewrite app_nil_r.
  - intros Hw.
    replace (shouldAlert && _) with false by by destruct shouldAlert.
    cbv iota. by rewrite saveState_writable.
  - intros fuel' w2 rs Hf2.
    set (m' := set_lastCheckedRooms _ _).
    assert (configured m' = true) as Hc' by exact Hc.
    rewrite (checkForNewRooms_unfold fuel' true m' w2 rs Hc' Hf2).
    change (lastCheckedRooms m') with (@nil string).
    rewrite newRoomsOf_nil.
    destruct (recordNames rs (roomNames m')) as [names []].
    + do 3 eexists. split; [reflexivity|]. intros _.
      split;
        [|cbn [r_new]; change (lastCheckedRooms m') with (@nil string);
          by rewrite newRoomsOf_nil].
      refine (eq_trans (completed_outbox true rs m' w2 names) _).
      change (lastCheckedRooms m') with (@nil string).
      by rewrite newRoomsOf_nil.
    + do 3 eexists. split; [reflexivity|]. done.
Qed.

End state_claims.

Section cycle_claims.
Import Hierarchy Monitor.
Implicit Types (m : RoomMonitor) (w : world) (rs : list room).

Lemma empty_fetch_forgets_witness :
  ∃ res m' w',
    checkForNewRooms 2 true Example.knowing (Example.world0 Example.down)
      = Some (Some res, m', w')
    ∧ r_error res = false
    ∧ lastCheckedRooms m' = []
    ∧ outbox w' = []
    ∧ (true = true → persistedRooms (disk w') = Some (JArr []))
    ∧ ∀ fuel' w2 rs,
        fetchRoomsInSpace (remote w2) fuel' "!root" ∅ = Some rs →
        ∃ res2 m2 w3,
          checkForNewRooms fuel' true m' w2 = Some (Some res2, m2, w3)
          ∧ (r_error res2 = false →
             outbox w3 = outbox w2 ++ sent Example.knowing rs
             ∧ r_new res2 = length rs).
Proof.
  apply (empty_fetch_forgets 2 true Example.knowing
           (Example.world0 Example.down)).
  - reflexivity.
  - right. split; [reflexivity | lia].
Defined.

(** C8: a second cycle over the hierarchy that the first one saw finds no
    new room, sends nothing, and leaves the known ids, in memory and in the
    file, as the first cycle left them. *)
Theorem idempotent_cycles fuel shouldAlert m w rs res1 m1 w1 :
  configured m = true →
  disk_writable w = true →
  fetchRoomsInSpace (remote w) fuel (default "" (observedSpace m)) ∅
    = Some rs →
  checkForNewRooms fuel shouldAlert m w = Some (Some res1, m1, w1) →
  r_error res1 = false →
  ∀ w1', remote w1' = remote w → disk w1' = disk w1 →
  ∃ res2 m2 w2,
    checkForNewRooms fuel true m1 w1' = Some (Some res2, m2, w2)
    ∧ r_error res2 = false
    ∧ r_new res2 = 0
    ∧ outbox w2 = outbox w1'
    ∧ lastCheckedRooms m2 = lastCheckedRooms m1
    ∧ persistedRooms (disk w2) = persistedRooms (disk w1).
Proof.
  intros Hc Hw Hf H1 Herr w1' Hr Hd.
  rewrite (checkForNewRooms_unfold _ _ _ _ rs Hc Hf) in H1.
  destruct (recordNames _ _) as [names []];
    [|injection H1 as <- _ _; done].
  unfold completed in H1. injection H1 as _ <- <-.
  set (m1 := set_lastCheckedRooms _ _) in *.
  set (w0 := if shouldAlert && _ then _ else w) in *.
  assert (disk_writable w0 = true) as Hw0.
  { subst w0. destruct (_ && _); [|done].
    by destruct (notifyAll_rest (newRoomsOf (lastCheckedRooms m) rs)
                   (set_roomNames names m) w) as (_ & _ & -> & _). }
  assert (configured m1 = true) as Hc1 by exact Hc.
  assert (fetchRoomsInSpace (remote w1') fuel
            (default "" (observedSpace m1)) ∅ = Some rs) as Hf1
    by (rewrite Hr; exact Hf).
  rewrite (checkForNewRooms_unfold _ true m1 w1' rs Hc1 Hf1).
  change (lastCheckedRooms m1) with (currentRoomIdsOf rs).
  rewrite newRoomsOf_known, recordNames_nil.
  do 3 eexists. split; [reflexivity|].
  split_and!; try done.
  - cbn [r_new]. change (lastCheckedRooms m1) with (currentRoomIdsOf rs).
    by rewrite newRoomsOf_known.
  - refine (eq_trans (completed_outbox true rs m1 w1' (roomNames m1)) _).
    change (lastCheckedRooms m1) with (currentRoomIdsOf rs).
    rewrite newRoomsOf_known. apply app_nil_r.
  - change (lastCheckedRooms m1) with (currentRoomIdsOf rs).
    rewrite newRoomsOf_known. simpl length.
    rewrite andb_false_r. cbv iota.
    rewrite (saveState_writable m1 w0 Hw0).
    unfold saveState at 1. destruct (disk_writable w1'); [done|].
    rewrite Hd. by rewrite (saveState_writable m1 w0 Hw0).
Qed.

Lemma idempotent_cycles_witness :
  ∃ res2 m2 w2,
    checkForNewRooms 3 true Example.baselined.1.2 Example.baselined.2
      = Some (Some res2, m2, w2)
    ∧ r_error res2 = false
    ∧ r_new res2 = 0
    ∧ outbox w2 = outbox Example.baselined.2
    ∧ lastCheckedRooms m2 = lastCheckedRooms Example.baselined.1.2
    ∧ persistedRooms (disk w2) = persistedRooms (disk Example.baselined.2).
Proof.
  exact (idempotent_cycles 3 false Example.fresh
           (Example.world0 Example.three) Example.threeRooms
           _ Example.baselined.1.2 Example.baselined.2
           eq_refl eq_refl eq_refl eq_refl eq_refl
           Example.baselined.2 eq_refl eq_refl).
Defined.

Lemma notifiedIds_sent m l : notifiedIds (sent m l) = room_id <$> l.
Proof.
  unfold notifiedIds, sent. rewrite <- list_fmap_compose.
  by apply list_fmap_ext.
Qed.

(** C2, as the code has it: an alerting cycle that completes announces
    exactly the fetched rooms whose id is absent from the known set, and the
    known set it leaves is the id set of its own fetch. So each id is
    announced once when the fetched list names it once, and the next cycle
    announces no room that this cycle fetched. *)
Theorem notifies_absent_from_known fuel m w rs :
  configured m = true →
  fetchRoomsInSpace (remote w) fuel (default "" (observedSpace m)) ∅
    = Some rs →
  ∃ res m' w',
    checkForNewRooms fuel true m w = Some (Some res, m', w')
    ∧ (r_error res = false →
       outbox w' = outbox w ++ sent m (newRoomsOf (lastCheckedRooms m) rs)
       ∧ (∀ id, id ∈ notifiedIds
                       (sent m (newRoomsOf (lastCheckedRooms m) rs))
                ↔ id ∈ room_id <$> rs ∧ id ∉ lastCheckedRooms m)
       ∧ (NoDup (room_id <$> rs) →
          NoDup (notifiedIds (sent m (newRoomsOf (lastCheckedRooms m) rs))))
       ∧ ∀ fuel2 w2 rs2,
           fetchRoomsInSpace (remote w2) fuel2
             (default "" (observedSpace m)) ∅ = Some rs2 →
           ∃ res2 m2 w3,
             checkForNewRooms fuel2 true m' w2 = Some (Some res2, m2, w3)
             ∧ (r_error res2 = false →
                ∃ l, outbox w3 = outbox w2 ++ sent m l
                     ∧ l `sublist_of` rs2
                     ∧ ∀ r, r ∈ l ↔ r ∈ rs2 ∧ room_id r ∉ room_id <$> rs)).
Proof.
  intros Hc Hf.
  rewrite (checkForNewRooms_unfold _ _ _ _ rs Hc Hf).
  destruct (recordNames _ _) as [names []];
    [|do 3 eexists; split; [reflexivity|done]].
  do 3 eexists. split; [reflexivity|]. intros _. split_and!.
  - exact (completed_outbox true rs m w names).
  - intros id. rewrite notifiedIds_sent, !list_elem_of_fmap. split.
    + intros (r & -> & [Hr Hn]%newRoomsOf_elem). eauto.
    + intros [(r & -> & Hr) Hn]. exists r. split; [done|].
      by apply newRoomsOf_elem.
  - intros Hnd. rewrite notifiedIds_sent.
    eapply sublist_NoDup; [exact Hnd|].
    apply fmap_sublist, sublist_filter.
  - intros fuel2 w2 rs2 Hf2.
    set (m' := set_lastCheckedRooms _ _).
    assert (configured m' = true) as Hc' by exact Hc.
    rewrite (checkForNewRooms_unfold fuel2 true m' w2 rs2 Hc' Hf2).
    destruct (recordNames _ _) as [names2 []];
      [|do 3 eexists; split; [reflexivity|done]].
    do 3 eexists. split; [reflexivity|]. intros _.
    exists (newRoomsOf (currentRoomIdsOf rs) rs2). split_and!.
    + exact (completed_outbox true rs2 m' w2 names2).
    + apply sublist_filter.
    + intros r. rewrite newRoomsOf_elem. unfold currentRoomIdsOf.
      by rewrite elem_of_SetOf.
Qed.

End cycle_claims.

Section notification_counterexamples.
Import Hierarchy Monitor.

Lemma notifies_absent_from_known_witness :
  ∃ res m' w',
    checkForNewRooms 3 true Example.fresh (Example.world0 Example.three)
      = Some (Some res, m', w')
    ∧ (r_error res = false →
       outbox w' = [] ++ sent Example.fresh Example.threeRooms
       ∧ (∀ id, id ∈ notifiedIds (sent Example.fresh Example.threeRooms)
                ↔ id ∈ room_id <$> Example.threeRooms ∧ id ∉ [])
       ∧ (NoDup (room_id <$> Example.threeRooms) →
          NoDup (notifiedIds (sent Example.fresh Example.threeRooms)))
       ∧ ∀ fuel2 w2 rs2,
           fetchRoomsInSpace (remote w2) fuel2 "!root" ∅ = Some rs2 →
           ∃ res2 m2 w3,
             checkForNewRooms fuel2 true m' w2 = Some (Some res2, m2, w3)
             ∧ (r_error res2 = false →
                ∃ l, outbox w3 = outbox w2 ++ sent Example.fresh l
                     ∧ l `sublist_of` rs2
                     ∧ ∀ r, r ∈ l
                            ↔ r ∈ rs2
                              ∧ room_id r ∉ room_id <$> Example.threeRooms)).
Proof.
  exact (notifies_absent_from_known 3 Example.fresh
           (Example.world0 Example.three) Example.threeRooms
           eq_refl eq_refl).
Defined.

(** C2 as stated fails twice over. The monitor starts over an empty
    hierarchy. Within one cycle, a room that the root and one of its
    sub-spaces both list is announced twice. Across cycles, a room
    announced once is announced again after a cycle whose walk did not
    return it. *)
Lemma one_notification_per_room_fails :
  ∃ m0 w0,
    startMonitoring 3 Example.fresh (Example.world0 Example.none)
      = Some (m0, w0)
    ∧ outbox w0 = []
    ∧ (∃ m1 w1,
         cycles 3 [Example.shared] m0 w0 = Some (m1, w1)
         ∧ notifiedIds (outbox w1) = ["!r"; "!r"])
    ∧ (∃ m1 w1 m3 w3,
         cycles 3 [Example.one] m0 w0 = Some (m1, w1)
         ∧ notifiedIds (outbox w1) = ["!r"]
         ∧ cycles 3 [Example.down; Example.one] m1 w1 = Some (m3, w3)
         ∧ notifiedIds (outbox w3) = ["!r"; "!r"]).
Proof.
  do 2 eexists. split_and!; [reflexivity..| |].
  - do 2 eexists. split; reflexivity.
  - do 4 eexists. split_and!; reflexivity.
Qed.

(** C3 at its own example, in the class that walks [/hierarchy]: sub-space
    [!X], listed first, cannot be expanded; the throw leaves the whole
    walk, [!Y] is never asked for, and the rooms [!r5] and [!r6] are not
    returned. The class of [room-monitor.js] returns them. *)
Theorem broken_branch_ends_walk fuel :
  fetchRoomsInSpace Example.broken (3 + fuel) "!root" ∅ = Some []
  ∧ requests <$> traverse Example.broken (3 + fuel) "!root" ∅
    = Some [("!root", None); ("!X", None)]
  ∧ fst <$> StateApi.fetchRoomsInSpace Example.brokenState (3 + fuel)
              "!root" StateApi.start
    = Some [ {| StateApi.room_id := "!r5"; StateApi.name := "!r5" |};
             {| StateApi.room_id := "!r6"; StateApi.name := "!r6" |} ].
Proof.
  split_and!.
  - reflexivity.
  - reflexivity.
  - destruct fuel; reflexivity.
Qed.

End notification_counterexamples.

(** ** The timer and the cycles in flight *)

Section event_loop.
Import Hierarchy Monitor Loop.
Implicit Types (m : RoomMonitor) (w : world) (s : sys).

Lemma step_tick_running fuel s :
  is_Some (monitoringInterval (mon s)) →
  configured (mon s) = true →
  isRunning (mon s) = true →
  step fuel Tick s
  = Some {| mon := mon s; wld := wld s;
            inflight := inflight s ++ [AwaitFetch true];
            returned := returned s |}.
Proof.
  intros [p Hp] Hc Hr. unfold step, spawn. by rewrite Hp, Hr, Hc.
Qed.

Lemma step_tick_stopped fuel s :
  is_Some (monitoringInterval (mon s)) →
  isRunning (mon s) = false →
  step fuel Tick s = Some s.
Proof. intros [p Hp] Hr. unfold step. by rewrite Hp, Hr. Qed.

(** C1, as the code has it: the callback of the timer looks at [isRunning]
    only. While the monitor runs, every firing starts a cycle next to the
    cycles that have not returned, so [n] firings leave [n] more cycles in
    flight; once [isRunning] is cleared a firing starts none, and
    [stopMonitoring] removes the timer but no cycle in flight. *)
Theorem timer_guard_is_running_flag fuel s n :
  is_Some (monitoringInterval (mon s)) →
  configured (mon s) = true →
  (isRunning (mon s) = true →
   ∃ s', run fuel (replicate n Tick) s = Some s'
         ∧ mon s' = mon s ∧ wld s' = wld s
         ∧ inflight s' = inflight s ++ replicate n (AwaitFetch true))
  ∧ (isRunning (mon s) = false →
     run fuel (replicate n Tick) s = Some s)
  ∧ (∃ s', step fuel Stop s = Some s'
           ∧ inflight s' = inflight s
           ∧ step fuel Tick s' = None).
Proof.
  intros Ht Hc. split_and!.
  - intros Hr. revert s Ht Hc Hr.
    induction n as [|n IH]; intros s Ht Hc Hr.
    + exists s. by rewrite app_nil_r.
    + rewrite replicate_S. cbn [run].
      rewrite (step_tick_running fuel s Ht Hc Hr). simpl.
      destruct (IH {| mon := mon s; wld := wld s;
                      inflight := inflight s ++ [AwaitFetch true];
                      returned := returned s |} Ht Hc Hr)
        as (s' & Hrun & Hm & Hw & Hi).
      exists s'. split_and!; try done.
      rewrite Hi. simpl. by rewrite <- app_assoc.
  - intros Hr. induction n as [|n IH]; [done|].
    rewrite replicate_S. cbn [run].
    rewrite (step_tick_stopped fuel s Ht Hr). exact IH.
  - eexists. split_and!; reflexivity.
Qed.

Lemma timer_guard_is_running_flag_witness :
  (true = true →
   ∃ s', run 3 (replicate 2 Tick) Example.startedSys = Some s'
         ∧ mon s' = mon Example.startedSys
         ∧ wld s' = wld Example.startedSys
         ∧ inflight s' = [] ++ replicate 2 (AwaitFetch true))
  ∧ (true = false →
     run 3 (replicate 2 Tick) Example.startedSys = Some Example.startedSys)
  ∧ (∃ s', step 3 Stop Example.startedSys = Some s'
           ∧ inflight s' = []
           ∧ step 3 Tick s' = None).
Proof.
  apply (timer_guard_is_running_flag 3 Example.startedSys 2).
  - by eexists.
  - reflexivity.
Defined.

(** C1 as stated fails. The monitor has started; a room appears; the timer
    fires twice before the first of the two cycles has returned. Both cycles
    are then in flight, both find the room new, and both announce it. *)
Lemma single_flight_fails :
  started 3 Example.fresh (Example.world0 Example.none)
    = Some Example.startedSys
  ∧ ∃ s2 s4,
      run 3 [Change Example.one; Tick; Tick] Example.startedSys = Some s2
      ∧ inflight s2 = [AwaitFetch true; AwaitFetch true]
      ∧ run 3 [Resume 0; Resume 1] s2 = Some s4
      ∧ inflight s4 = [AwaitSend [] ["!r"] 1; AwaitSend [] ["!r"] 1]
      ∧ notifiedIds (outbox (wld s4)) = ["!r"; "!r"].
Proof.
  split; [reflexivity|]. do 2 eexists. split_and!; reflexivity.
Qed.

Lemma saveState_clock m w : clock (saveState m w) = clock w.
Proof. unfold saveState. by destruct (disk_writable w). Qed.

Lemma drain_finished fuel k r m w :
  drain fuel k (Finished r) m w = Some (r, m, w).
Proof. by destruct k. Qed.

Lemma drain_send fuel rest cur n m w k :
  (2 * length rest + 3 ≤ k)%nat →
  drain fuel k (Suspended (AwaitSend rest cur n)) m w
  = Some (Some {| r_checked := length cur; r_new := n; r_error := false;
                  r_timestamp := clock w |},
          set_lastCheckedRooms cur m,
          saveState (set_lastCheckedRooms cur m) (notifyAll rest m w)).
Proof.
  revert w k. induction rest as [|r rest IH]; intros w k Hk.
  - destruct k as [|[|[|k]]]; simpl in Hk; try lia.
    simpl. by rewrite drain_finished, saveState_clock.
  - destruct k as [|[|k]]; simpl in Hk; try lia.
    simpl drain. rewrite IH by lia. done.
Qed.

(** A cycle that runs alone, from the call to its return, does what
    [checkForNewRooms] does. *)
Lemma drain_checkForNewRooms fuel shouldAlert m w rs k :
  fetchRoomsInSpace (remote w) fuel (default "" (observedSpace m)) ∅
    = Some rs →
  (2 * length rs + 4 ≤ k)%nat →
  drain fuel k (spawn shouldAlert m) m w
  = checkForNewRooms fuel shouldAlert m w.
Proof.
  intros Hf Hk. unfold spawn, checkForNewRooms.
  destruct (configured m); simpl negb; cbv iota;
    [|by rewrite drain_finished].
  destruct k as [|k]; [lia|]. simpl drain. rewrite Hf. simpl.
  unfold afterFetch.
  pose proof (length_filter (λ r, Js.has (lastCheckedRooms m) (room_id r) = false) rs)
    as Hlen.
  fold (newRoomsOf (lastCheckedRooms m) rs) in Hlen.
  destruct (recordNames _ _) as [names []];
    [|by rewrite drain_finished].
  destruct (newRoomsOf (lastCheckedRooms m) rs) as [|r rest] eqn:E.
  - rewrite andb_false_r. unfold persist.
    destruct k as [|k]; [lia|]. simpl.
    by rewrite drain_finished, saveState_clock.
  - destruct shouldAlert; simpl andb.
    + cbv iota. rewrite drain_send by (simpl in *; lia). simpl.
      rewrite saveState_clock.
      destruct (notifyAll_rest rest (set_roomNames names m)
                  (sendEnhancedRoomNotification r (set_roomNames names m) w))
        as (_ & _ & _ & ->).
      done.
    + cbv iota. unfold persist. destruct k as [|k]; [simpl in *; lia|].
      simpl. by rewrite drain_finished, saveState_clock.
Qed.

End event_loop.

(** ** The walk: what it adds to its state *)

Section walk_relation.
Import Hierarchy.
Variable srv : server.
Variable R : relation tstate.
Context `{!PreOrder R}.
Hypothesis R_push : ∀ r st, R st (push r st).
Implicit Types (st : tstate) (l : list child).

Lemma forRooms_both rec l st0 st :
  (∀ s st, both (rec s st) (R st)) →
  R st0 st → both (forRooms rec l st) (R st0).
Proof.
  intros Hrec. revert st. induction l as [|c l IH]; intros st Hst; [done|].
  cbn [forRooms]. destruct (isSpace c).
  - pose proof (Hrec (c_room_id c) st) as Hc.
    destruct (rec (c_room_id c) st) as [st'| st'|]; simpl in *; [|by etrans|done].
    apply IH. by etrans.
  - apply IH. etrans; [exact Hst | apply R_push].
Qed.

Lemma pageLoop_both rec n s nextBatch st0 st :
  (∀ s st, both (rec s st) (R st)) →
  (∀ tok st, Js.truthy tok = true → R st (request s tok st)) →
  R st0 (request s (if Js.truthy nextBatch then nextBatch else None) st) →
  both (pageLoop srv rec n s nextBatch st) (R st0).
Proof.
  intros Hrec Hreq. revert nextBatch st.
  induction n as [|n IH]; intros nextBatch st Hst; [done|].
  cbn [pageLoop]. destruct (srv s _) as [resp|]; [|exact Hst].
  pose proof (forRooms_both rec (rooms resp) st0 _ Hrec Hst) as Hl.
  destruct (forRooms _ _ _) as [st2|st2|]; simpl in *; [|done..].
  destruct (Js.truthy (next_batch resp)) eqn:Hnb; [|done].
  apply IH. rewrite Hnb. etrans; [exact Hl|]. by apply Hreq.
Qed.

End walk_relation.

Section walk_extends.
Import Hierarchy.
Variable srv : server.
Implicit Types (st : tstate).

#[global] Instance extends_preorder : PreOrder extends.
Proof.
  split.
  - intros st. split; [done|]. exists []. rewrite app_nil_r.
    split_and!; [done|constructor|]. intros x. rewrite elem_of_nil. tauto.
  - intros a b c [Hab (n1 & E1 & N1 & M1)] [Hbc (n2 & E2 & N2 & M2)].
    split; [by etrans|]. exists (n1 ++ n2). split_and!.
    + by rewrite E2, E1, app_assoc.
    + apply NoDup_app. split_and!; [done| |done].
      intros x H1%M1 H2%M2. set_solver.
    + intros x. rewrite elem_of_app, M1, M2.
      destruct (decide (x ∈ visitedSpaces b)); set_solver.
Qed.

Lemma extends_push r st : extends st (push r st).
Proof.
  split; [done|]. exists []. rewrite app_nil_r.
  split_and!; [done|constructor|]. intros x. rewrite elem_of_nil. simpl. tauto.
Qed.

Lemma firsts_request s tok st :
  firsts (request s tok st)
  = firsts st ++ (if tok is None then [s] else []).
Proof.
  unfold firsts, request. simpl. rewrite filter_app, fmap_app.
  f_equal. destruct tok; [by rewrite filter_cons_False|].
  by rewrite filter_cons_True.
Qed.

Lemma extends_request_more s tok st :
  Js.truthy tok = true → extends st (request s tok st).
Proof.
  intros Ht. split; [done|]. exists []. rewrite firsts_request.
  destruct tok; [|done].
  split_and!; [done|constructor|]. intros x. rewrite elem_of_nil. simpl. tauto.
Qed.

Lemma extends_expand s st :
  s ∉ visitedSpaces st → extends st (request s None (visit s st)).
Proof.
  intros Hs. split; [simpl; set_solver|]. exists [s].
  rewrite firsts_request. split_and!; [done|apply NoDup_singleton|].
  intros x. rewrite list_elem_of_singleton. simpl. set_solver.
Qed.

(** Whatever the server answers, a walk visits more spaces and asks for
    the start of the listing of each space it newly visits, once. *)
Lemma recurseHierarchy_extends fuel s st :
  both (recurseHierarchy srv fuel s st) (extends st).
Proof.
  revert s st. induction fuel as [|fuel IH]; intros s st; [done|].
  cbn [recurseHierarchy]. case_bool_decide as Hs; [simpl; reflexivity|].
  apply (pageLoop_both srv extends extends_push); [exact IH| |].
  - intros tok st'. apply extends_request_more.
  - simpl. by apply extends_expand.
Qed.

Lemma expansions_firsts s st :
  Graph.expansions s st = length (filter (λ x, x = s) (firsts st)).
Proof.
  unfold Graph.expansions, firsts.
  induction (requests st) as [|[x tok] l IH]; [done|].
  destruct (decide ((x, tok) = (s, None))) as [[= -> ->]|Hne].
  - rewrite !filter_cons_True by done. simpl.
    rewrite filter_cons_True by done. simpl. by rewrite IH.
  - rewrite (filter_cons_False (λ q, q = (s, None))) by done.
    destruct tok as [t|].
    + by rewrite (filter_cons_False (λ q, q.2 = None)).
    + rewrite (filter_cons_True (λ q, q.2 = None)) by done. simpl.
      rewrite filter_cons_False by congruence. exact IH.
Qed.

Lemma NoDup_count (s : string) (l : list string) :
  NoDup l →
  length (filter (λ x, x = s) l) = if decide (s ∈ l) then 1 else 0.
Proof.
  induction 1 as [|x l Hx Hl IH]; [done|].
  destruct (decide (x = s)) as [->|Hne].
  - rewrite filter_cons_True by done. simpl. rewrite IH.
    rewrite decide_False by done. rewrite decide_True by left. done.
  - rewrite filter_cons_False by done. rewrite IH.
    destruct (decide (s ∈ l)).
    + by rewrite decide_True by by right.
    + rewrite decide_False; [done|]. rewrite elem_of_cons. naive_solver.
Qed.

(** Within one call of [fetchRoomsInSpace], a space is expanded once if
    the walk visits it, and never otherwise. *)
Lemma traverse_expansions fuel root st s :
  traverse srv fuel root ∅ = Some st →
  Graph.expansions s st = if decide (s ∈ visitedSpaces st) then 1 else 0.
Proof.
  unfold traverse. intros Ht.
  pose proof (recurseHierarchy_extends fuel root (start ∅)) as Hext.
  assert (extends (start ∅) st) as [_ (new & E & Hnd & Hnew)].
  { destruct (recurseHierarchy _ _ _ _); simplify_eq; done. }
  rewrite expansions_firsts. change (firsts (start ∅)) with (@nil string) in E.
  rewrite E. simpl. rewrite (NoDup_count _ _ Hnd).
  destruct (decide (s ∈ new)) as [Hin|Hout].
  - apply Hnew in Hin as [Hin _]. by rewrite decide_True.
  - rewrite decide_False; [done|]. intros Hin. apply Hout, Hnew.
    split; [done|]. simpl. set_solver.
Qed.

End walk_extends.

(** ** The walk: pages *)

Section pages.
Import Hierarchy.
Variable srv : server.
Implicit Types (st : tstate) (l : list child) (tok : option string).

Lemma recurseHierarchy_visited fuel s st :
  s ∈ visitedSpaces st → recurseHierarchy srv (S fuel) s st = Done st.
Proof. intros Hs. simpl. by rewrite bool_decide_eq_true_2. Qed.

Lemma leaves_app l1 l2 : leaves (l1 ++ l2) = leaves l1 ++ leaves l2.
Proof. unfold leaves. by rewrite filter_app, fmap_app. Qed.

(** Entries that are leaf rooms or visited spaces only add records. *)
Lemma forRooms_leaves fuel l st :
  (∀ c, c ∈ l → isSpace c = true → c_room_id c ∈ visitedSpaces st) →
  forRooms (recurseHierarchy srv (S fuel)) l st
  = Done {| visitedSpaces := visitedSpaces st;
            allRooms := allRooms st ++ leaves l;
            requests := requests st |}.
Proof.
  revert st. induction l as [|c l IH]; intros st Hl.
  - simpl. rewrite app_nil_r. by destruct st.
  - cbn [forRooms]. destruct (isSpace c) eqn:Ec.
    + rewrite recurseHierarchy_visited
        by (apply Hl; [by left | done]).
      rewrite IH by (intros c' Hc'; apply Hl; by right).
      unfold leaves. by rewrite filter_cons_False by congruence.
    + rewrite IH by (intros c' Hc'; apply Hl; by right).
      unfold leaves. rewrite filter_cons_True by done.
      simpl. by rewrite <- app_assoc.
Qed.

Lemma pageLoop_leaves fuel s n tok pages st :
  pagesFrom srv s tok pages →
  tok = None ∨ Js.truthy tok = true →
  (∀ c, c ∈ mjoin (rooms <$> pages) → isSpace c = true →
        c_room_id c ∈ visitedSpaces st) →
  length pages ≤ n →
  pageLoop srv (recurseHierarchy srv (S fuel)) n s tok st
  = Done {| visitedSpaces := visitedSpaces st;
            allRooms := allRooms st ++ leaves (mjoin (rooms <$> pages));
            requests := requests st
                        ++ ((λ t, (s, t)) <$> asked tok pages) |}.
Proof.
  intros Hp. revert n st.
  induction Hp as [tok resp Hsrv Hlast | tok resp rest Hsrv Hmore Hp IH];
    intros n st Htok Hl Hn.
  - destruct n as [|n]; [simpl in Hn; lia|]. cbn [pageLoop].
    replace (if Js.truthy tok then tok else None) with tok
      by (destruct Htok as [-> | ->]; done).
    rewrite Hsrv, forRooms_leaves.
    + rewrite Hlast. simpl. by rewrite app_nil_r.
    + intros c Hc. apply Hl. simpl. rewrite app_nil_r. exact Hc.
  - destruct n as [|n]; [simpl in Hn; lia|]. cbn [pageLoop].
    replace (if Js.truthy tok then tok else None) with tok
      by (destruct Htok as [-> | ->]; done).
    rewrite Hsrv, forRooms_leaves.
    + rewrite Hmore, IH.
      * simpl. rewrite leaves_app. by rewrite <- !app_assoc.
      * by right.
      * intros c Hc. apply Hl. simpl. apply elem_of_app. by right.
      * simpl in Hn. simpl. lia.
    + intros c Hc. apply Hl. simpl. apply elem_of_app. by left.
Qed.

#[global] Instance keeps_preorder s : PreOrder (keeps s).
Proof.
  split.
  - intros st Hs. done.
  - intros a b c Hab Hbc Hs.
    destruct (Hab Hs) as (Hb & Eb & Pb). destruct (Hbc Hb) as (Hc & Ec & Pc).
    split_and!; [done|congruence|by etrans].
Qed.

Lemma keeps_push s r st : keeps s st (push r st).
Proof. intros Hs. split_and!; [done..|]. by apply prefix_app_r. Qed.

Lemma toSpace_request s x tok st :
  toSpace s (request x tok st)
  = toSpace s st ++ (if decide (x = s) then [(x, tok)] else []).
Proof.
  unfold toSpace, request. cbn [requests]. rewrite filter_app.
  destruct (decide (x = s)) as [->|Hne].
  - by rewrite filter_cons_True.
  - by rewrite filter_cons_False.
Qed.

Lemma keeps_request s x tok st : x ≠ s → keeps s st (request x tok st).
Proof.
  intros Hne Hs. split_and!; [done| |done].
  rewrite toSpace_request, decide_False by done. apply app_nil_r.
Qed.

(** A walk never asks for the listing of a space it found visited. *)
Lemma recurseHierarchy_keeps s fuel x st :
  both (recurseHierarchy srv fuel x st) (keeps s st).
Proof.
  revert x st. induction fuel as [|fuel IH]; intros x st; [done|].
  cbn [recurseHierarchy]. case_bool_decide as Hx; [simpl; reflexivity|].
  destruct (decide (s ∈ visitedSpaces st)) as [Hs|Hs].
  - assert (x ≠ s) as Hne by congruence.
    apply (pageLoop_both srv (keeps s) (keeps_push s)); [exact IH| |].
    + intros tok st' _. by apply keeps_request.
    + intros _. split_and!; [simpl; set_solver| |done].
      rewrite toSpace_request, decide_False by done. apply app_nil_r.
  - destruct (pageLoop _ _ _ _ _ _); simpl; try done; by intros ?.
Qed.

Lemma forRooms_chain s rec l st st' :
  (∀ x st, both (rec x st) (keeps s st)) →
  s ∈ visitedSpaces st →
  forRooms rec l st = Done st' →
  s ∈ visitedSpaces st'
  ∧ toSpace s st' = toSpace s st
  ∧ ∃ suf, allRooms st' = allRooms st ++ suf ∧ leaves l `sublist_of` suf.
Proof.
  intros Hrec. revert st. induction l as [|c l IH]; intros st Hs Hdone.
  - injection Hdone as <-. split_and!; [done..|]. exists [].
    by rewrite app_nil_r.
  - cbn [forRooms] in Hdone. destruct (isSpace c) eqn:Ec.
    + pose proof (Hrec (c_room_id c) st) as Hc.
      destruct (rec (c_room_id c) st) as [st1|st1|]; [|done..].
      destruct (Hc Hs) as (Hs1 & E1 & [k Hk]).
      destruct (IH st1 Hs1 Hdone) as (Hs' & E' & suf & Hsuf & Hsub).
      split_and!; [done|congruence|]. exists (k ++ suf). split.
      * by rewrite Hsuf, Hk, app_assoc.
      * unfold leaves. rewrite filter_cons_False by congruence.
        by apply sublist_inserts_l.
    + destruct (IH (push (metadata c) st) Hs Hdone)
        as (Hs' & E' & suf & Hsuf & Hsub).
      split_and!; [done..|]. exists (metadata c :: suf). split.
      * rewrite Hsuf. simpl. by rewrite <- app_assoc.
      * unfold leaves. rewrite filter_cons_True by done.
        by apply sublist_skip.
Qed.

Lemma pageLoop_chain s rec n tok pages st st' :
  (∀ x st, both (rec x st) (keeps s st)) →
  pagesFrom srv s tok pages →
  tok = None ∨ Js.truthy tok = true →
  s ∈ visitedSpaces st →
  pageLoop srv rec n s tok st = Done st' →
  toSpace s st' = toSpace s st ++ ((λ t, (s, t)) <$> asked tok pages)
  ∧ ∃ suf, allRooms st' = allRooms st ++ suf
           ∧ leaves (mjoin (rooms <$> pages)) `sublist_of` suf.
Proof.
  intros Hrec Hp. revert n st.
  induction Hp as [tok resp Hsrv Hlast | tok resp rest Hsrv Hmore Hp IH];
    intros n st Htok Hs Hdone.
  - destruct n as [|n]; [done|]. cbn [pageLoop] in Hdone.
    replace (if Js.truthy tok then tok else None) with tok in Hdone
      by (destruct Htok as [-> | ->]; done).
    rewrite Hsrv in Hdone.
    destruct (forRooms rec (rooms resp) (request s tok st))
      as [st2|st2|] eqn:Hfor; [|done..].
    rewrite Hlast in Hdone. injection Hdone as ->.
    destruct (forRooms_chain s rec (rooms resp) (request s tok st) st'
                Hrec Hs Hfor) as (_ & E & suf & Hsuf & Hsub).
    cbn [request allRooms] in Hsuf.
    split.
    + rewrite E, toSpace_request, decide_True by done. done.
    + exists suf. split; [exact Hsuf|]. simpl. by rewrite app_nil_r.
  - destruct n as [|n]; [done|]. cbn [pageLoop] in Hdone.
    replace (if Js.truthy tok then tok else None) with tok in Hdone
      by (destruct Htok as [-> | ->]; done).
    rewrite Hsrv in Hdone.
    destruct (forRooms rec (rooms resp) (request s tok st))
      as [st2|st2|] eqn:Hfor; [|done..].
    rewrite Hmore in Hdone.
    destruct (forRooms_chain s rec (rooms resp) (request s tok st) st2
                Hrec Hs Hfor) as (Hs2 & E & suf & Hsuf & Hsub).
    cbn [request allRooms] in Hsuf.
    destruct (IH n st2 (or_intror Hmore) Hs2 Hdone)
      as (E' & suf' & Hsuf' & Hsub').
    split.
    + rewrite E', E, toSpace_request, decide_True by done.
      simpl. by rewrite <- app_assoc.
    + exists (suf ++ suf'). split.
      * rewrite Hsuf', Hsuf. simpl. by rewrite app_assoc.
      * simpl. rewrite leaves_app. by apply sublist_app.
Qed.

End pages.

(** ** The walk over a space graph *)

Section graph_walk.
Import Hierarchy Graph.
Variable g : graph.
Implicit Types (st : tstate) (l : list child) (V : gset string).

Lemma length_token k : String.length (token k) = k.
Proof. induction k as [|k IH]; [done|]. simpl. by f_equal. Qed.

Lemma truthy_token k : Js.truthy (Some (token (S k))) = true.
Proof. reflexivity. Qed.

Lemma serve_known s ps tok :
  g !! s = Some ps →
  serve g s tok
  = Some {| rooms := default [] (ps !! pageOf tok);
            next_batch := if bool_decide (S (pageOf tok) < length ps)
                          then Some (token (S (pageOf tok))) else None |}.
Proof. intros E. unfold serve. by rewrite E. Qed.

Lemma serve_unknown s tok : g !! s = None → serve g s tok = None.
Proof. intros E. unfold serve. by rewrite E. Qed.

Lemma maxPages_ge s ps : g !! s = Some ps → length ps ≤ maxPages g.
Proof.
  intros E. apply elem_of_map_to_list in E. unfold maxPages.
  induction (map_to_list g) as [|kv l IH]; [by apply elem_of_nil in E|].
  rewrite fmap_cons. cbn [foldr].
  apply elem_of_cons in E as [<- | E]; [apply Nat.le_max_l|].
  etrans; [exact (IH E) | apply Nat.le_max_r].
Qed.

(** *** It returns *)

Lemma forRooms_returns rec V l st :
  (∀ c st', V ⊆ visitedSpaces st' → rec c st' ≠ OutOfFuel) →
  (∀ c st', both (rec c st') (extends st')) →
  V ⊆ visitedSpaces st → forRooms rec l st ≠ OutOfFuel.
Proof.
  intros Hret Hext. revert st. induction l as [|c l IH]; intros st HV; [done|].
  cbn [forRooms]. destruct (isSpace c).
  - pose proof (Hret (c_room_id c) st HV) as Hr.
    pose proof (Hext (c_room_id c) st) as He.
    destruct (rec (c_room_id c) st) as [st'|st'|]; [|done..].
    apply IH. destruct He as [Hsub _]. set_solver.
  - by apply IH.
Qed.

Lemma pageLoop_returns rec V s ps n tok st :
  g !! s = Some ps →
  (∀ c st', V ⊆ visitedSpaces st' → rec c st' ≠ OutOfFuel) →
  (∀ c st', both (rec c st') (extends st')) →
  V ⊆ visitedSpaces st →
  tok = None ∨ (∃ k, tok = Some (token (S k))) →
  length ps - pageOf tok < n →
  pageLoop (serve g) rec n s tok st ≠ OutOfFuel.
Proof.
  intros Hps Hret Hext. revert tok st.
  induction n as [|n IH]; intros tok st HV Htok Hn; [lia|].
  cbn [pageLoop].
  replace (if Js.truthy tok then tok else None) with tok
    by (destruct Htok as [-> | [k ->]]; done).
  rewrite (serve_known s ps tok Hps). cbn [rooms next_batch].
  set (page := default [] (ps !! pageOf tok)).
  pose proof (forRooms_returns rec V page (request s tok st) Hret Hext HV)
    as Hr.
  pose proof (forRooms_both extends extends_push rec page
                (request s tok st) (request s tok st) Hext
                (reflexivity _)) as He.
  destruct (forRooms rec page (request s tok st)) as [st2|st2|]; [|done..].
  destruct He as [Hsub _]. simpl in Hsub.
  case_bool_decide as Hk; [|done].
  rewrite truthy_token. apply IH.
  - set_solver.
  - right. by eexists.
  - unfold pageOf at 1. rewrite length_token. lia.
Qed.

(** With fuel beyond the spaces not yet visited and the longest listing,
    the walk returns. *)
Lemma recurseHierarchy_returns fuel s st :
  size (dom g ∖ visitedSpaces st) + maxPages g + 2 ≤ fuel →
  recurseHierarchy (serve g) fuel s st ≠ OutOfFuel.
Proof.
  revert s st. induction fuel as [|fuel IH]; intros s st Hfuel; [lia|].
  cbn [recurseHierarchy]. case_bool_decide as Hs; [done|].
  destruct (g !! s) as [ps|] eqn:Hps.
  - apply (pageLoop_returns _ ({[s]} ∪ visitedSpaces st) s ps); try done.
    + intros c st' HV. apply IH.
      assert (dom g ∖ visitedSpaces st' ⊂ dom g ∖ visitedSpaces st) as Hlt.
      { apply elem_of_dom_2 in Hps. set_solver. }
      apply subset_size in Hlt. lia.
    + intros c st'. apply recurseHierarchy_extends.
    + by left.
    + pose proof (maxPages_ge s ps Hps). simpl. lia.
  - destruct fuel as [|fuel]; [lia|]. cbn [pageLoop].
    by rewrite serve_unknown.
Qed.

(** *** Over a closed graph it visits every sub-space *)

Lemma saturated_refl V : saturated g V V.
Proof. split; [done|]. intros v c Hv Hn. done. Qed.

Lemma saturated_trans V1 V2 V3 :
  saturated g V1 V2 → saturated g V2 V3 → saturated g V1 V3.
Proof.
  intros [H12 C12] [H23 C23]. split; [set_solver|].
  intros v c Hv Hn Hc. destruct (decide (v ∈ V2)) as [Hv2|Hv2].
  - apply H23. by eapply C12.
  - by eapply C23.
Qed.

Lemma forRooms_saturates rec l st :
  (∀ c st', c ∈ dom g →
     completes (rec c st')
       (λ st'', c ∈ visitedSpaces st''
                ∧ saturated g (visitedSpaces st') (visitedSpaces st''))) →
  (∀ c, c ∈ l → isSpace c = true → c_room_id c ∈ dom g) →
  completes (forRooms rec l st)
    (λ st', saturated g (visitedSpaces st) (visitedSpaces st')
            ∧ ∀ c, c ∈ l → isSpace c = true →
                   c_room_id c ∈ visitedSpaces st').
Proof.
  intros Hrec. revert st. induction l as [|c l IH]; intros st Hl.
  - simpl. split; [apply saturated_refl|]. by intros c ?%elem_of_nil.
  - cbn [forRooms]. destruct (isSpace c) eqn:Ec.
    + pose proof (Hrec (c_room_id c) st (Hl c (list_elem_of_here _ _) Ec))
        as Hc.
      destruct (rec (c_room_id c) st) as [st1|st1|]; [|done..].
      destruct Hc as [Hin Hsat]. simpl in Hin, Hsat.
      assert (∀ c', c' ∈ l → isSpace c' = true → c_room_id c' ∈ dom g)
        as Hl' by (intros c' Hc'; apply Hl; by right).
      pose proof (IH st1 Hl') as Hrest.
      destruct (forRooms rec l st1) as [st2|st2|]; [|done..].
      destruct Hrest as [Hsat2 Hall]. simpl. split.
      * by eapply saturated_trans.
      * intros c' [->|Hc']%elem_of_cons Hs; [|by apply Hall].
        destruct Hsat2 as [Hsub _]. set_solver.
    + assert (∀ c', c' ∈ l → isSpace c' = true → c_room_id c' ∈ dom g)
        as Hl' by (intros c' Hc'; apply Hl; by right).
      pose proof (IH (push (metadata c) st) Hl') as Hrest.
      destruct (forRooms rec l _) as [st2|st2|]; [|done..].
      destruct Hrest as [Hsat2 Hall]. simpl. split; [exact Hsat2|].
      intros c' [->|Hc']%elem_of_cons Hs; [congruence|by apply Hall].
Qed.

Lemma pageLoop_saturates rec s ps n tok st :
  g !! s = Some ps →
  (∀ c st', c ∈ dom g →
     completes (rec c st')
       (λ st'', c ∈ visitedSpaces st''
                ∧ saturated g (visitedSpaces st') (visitedSpaces st''))) →
  (∀ c, c ∈ mjoin ps → isSpace c = true → c_room_id c ∈ dom g) →
  tok = None ∨ (∃ k, tok = Some (token (S k))) →
  completes (pageLoop (serve g) rec n s tok st)
    (λ st', saturated g (visitedSpaces st) (visitedSpaces st')
            ∧ ∀ c, c ∈ mjoin (drop (pageOf tok) ps) → isSpace c = true →
                   c_room_id c ∈ visitedSpaces st').
Proof.
  intros Hps Hrec Hcl. revert tok st.
  induction n as [|n IH]; intros tok st Htok; [done|].
  cbn [pageLoop].
  replace (if Js.truthy tok then tok else None) with tok
    by (destruct Htok as [-> | [k ->]]; done).
  rewrite (serve_known s ps tok Hps). cbn [rooms next_batch].
  set (k := pageOf tok).
  assert (∀ c, c ∈ default [] (ps !! k) → c ∈ mjoin ps) as Hpage.
  { intros c Hc. destruct (ps !! k) as [page|] eqn:Ek;
      [|by apply elem_of_nil in Hc].
    apply list_elem_of_join. exists page. split; [done|].
    by eapply list_elem_of_lookup_2. }
  pose proof (forRooms_saturates rec (default [] (ps !! k))
                (request s tok st) Hrec
                (λ c Hc, Hcl c (Hpage c Hc))) as Hl.
  destruct (forRooms rec _ (request s tok st)) as [st2|st2|]; [|done..].
  destruct Hl as [Hsat Hall]. simpl in Hsat.
  case_bool_decide as Hk.
  - rewrite truthy_token.
    assert (Some (token (S k)) = None
            ∨ ∃ k', Some (token (S k)) = Some (token (S k'))) as Htok'
      by (right; by eexists).
    pose proof (IH (Some (token (S k))) st2 Htok') as Hrest.
    destruct (pageLoop _ _ _ _ _ st2) as [st3|st3|]; [|done..].
    destruct Hrest as [Hsat3 Hall3]. unfold pageOf at 1 in Hall3.
    rewrite length_token in Hall3. simpl. split.
    + by eapply saturated_trans.
    + destruct (lookup_lt_is_Some_2 ps k) as [page Ek]; [lia|].
      rewrite (drop_S _ _ _ Ek). simpl. rewrite Ek in Hall. simpl in Hall.
      intros c [Hc|Hc]%elem_of_app Hs; [|by apply Hall3].
      destruct Hsat3 as [Hsub _]. specialize (Hall c Hc Hs). set_solver.
  - simpl. split; [exact Hsat|].
    destruct (ps !! k) as [page|] eqn:Ek.
    + rewrite (drop_S _ _ _ Ek). simpl.
      rewrite drop_ge by lia. simpl. rewrite app_nil_r. exact Hall.
    + apply lookup_ge_None in Ek. rewrite drop_ge by lia.
      by intros c ?%elem_of_nil.
Qed.

Lemma completes_mono o (P Q : tstate → Prop) :
  (∀ st, P st → Q st) → completes o P → completes o Q.
Proof. intros HPQ. destruct o; simpl; auto. Qed.

Lemma recurseHierarchy_saturates fuel s st :
  closed g →
  s ∈ dom g →
  completes (recurseHierarchy (serve g) fuel s st)
    (λ st', s ∈ visitedSpaces st'
            ∧ saturated g (visitedSpaces st) (visitedSpaces st')).
Proof.
  intros Hcl. revert s st. induction fuel as [|fuel IH]; intros s st Hs; [done|].
  cbn [recurseHierarchy]. case_bool_decide as Hv.
  { simpl. split; [done | apply saturated_refl]. }
  apply elem_of_dom in Hs as [ps Hps].
  assert (∀ c, c ∈ mjoin ps → isSpace c = true → c_room_id c ∈ dom g) as Hps'.
  { pose proof (map_Forall_lookup_1 _ _ _ _ Hcl Hps) as Hall. simpl in Hall.
    intros c Hc. by apply (proj1 (Forall_forall _ _) Hall). }
  eapply completes_mono;
    [|apply (pageLoop_saturates _ s ps fuel None (visit s st) Hps IH Hps');
      by left].
  intros st' [[Hsub Hsat] Hall]. simpl in Hsub, Hsat, Hall. split; [set_solver|].
  split; [set_solver|]. intros v c Hv' Hn Hc.
  destruct (decide (v = s)) as [->|Hne].
  - unfold spaceChildren, entries in Hc. rewrite Hps in Hc. simpl in Hc.
    apply list_elem_of_fmap in Hc as (c0 & -> & [Hsp Hc0]%list_elem_of_filter).
    by apply Hall.
  - eapply Hsat; [exact Hv'| |exact Hc]. set_solver.
Qed.

Lemma saturated_reach root V :
  saturated g ∅ V → root ∈ V → ∀ s, reach g root s → s ∈ V.
Proof.
  intros [_ Hsat] Hroot s Hs. induction Hs as [|s c Hs IH Hc]; [done|].
  eapply Hsat; [exact IH| |exact Hc]. set_solver.
Qed.

(** C4: over every space graph, cyclic or not, [fetchRoomsInSpace] returns
    once it has fuel for the spaces and the longest listing; within the call
    the listing of a space is asked for from its start once if the walk
    visits the space and never otherwise; and when every listed sub-space
    has a listing, the walk ends normally and has expanded every space that
    can be reached from the root exactly once. *)
Theorem cycle_safe_walk root fuel :
  enoughFuel g ≤ fuel →
  ∃ st,
    traverse (serve g) fuel root ∅ = Some st
    ∧ (∀ s, expansions s st ≤ 1)
    ∧ (∀ s, expansions s st = 1 ↔ s ∈ visitedSpaces st)
    ∧ (closed g → root ∈ dom g →
       recurseHierarchy (serve g) fuel root (start ∅) = Done st
       ∧ ∀ s, reach g root s → expansions s st = 1).
Proof.
  intros Hfuel.
  assert (recurseHierarchy (serve g) fuel root (start ∅) ≠ OutOfFuel) as Hret.
  { apply recurseHierarchy_returns. simpl.
    rewrite difference_empty_L, size_dom. exact Hfuel. }
  assert (∃ st, traverse (serve g) fuel root ∅ = Some st) as [st Hst].
  { unfold traverse. destruct (recurseHierarchy _ _ _ _); [by eexists..|done]. }
  pose proof (λ s, traverse_expansions (serve g) fuel root st s Hst) as Hexp.
  exists st. split_and!; [done| | |].
  - intros s. rewrite Hexp. case_decide; lia.
  - intros s. rewrite Hexp. case_decide; [done|]. split; [lia|done].
  - intros Hcl Hroot.
    pose proof (recurseHierarchy_saturates fuel root (start ∅) Hcl Hroot) as Hsat.
    unfold traverse in Hst.
    destruct (recurseHierarchy _ _ _ _) as [st'|st'|]; [|done..].
    injection Hst as ->. destruct Hsat as [Hin Hsat]. split; [done|].
    intros s Hs. rewrite Hexp. rewrite decide_True; [done|].
    by eapply saturated_reach.
Qed.

End graph_walk.

(** ** The walk at instances *)

Section walk_instances.
Import Hierarchy Graph.

Lemma cyclic_closed : closed Example.cyclic.
Proof. unfold closed. apply (bool_decide_unpack _). by vm_compute. Qed.

Lemma cycle_safe_walk_witness :
  ∃ st,
    traverse (serve Example.cyclic) 5 "!A" ∅ = Some st
    ∧ requests st = [("!A", None); ("!B", None)]
    ∧ allRooms st = [Example.plain "!b"; Example.plain "!a"]
    ∧ expansions "!A" st = 1
    ∧ expansions "!B" st = 1.
Proof.
  destruct (cycle_safe_walk Example.cyclic "!A" 5) as (st & Ht & _ & _ & Hc).
  { vm_compute. lia. }
  exists st. split; [exact Ht|].
  destruct (Hc cyclic_closed) as [_ Hreach].
  { rewrite elem_of_dom. by eexists. }
  split_and!.
  - vm_compute in Ht. by injection Ht as <-.
  - vm_compute in Ht. by injection Ht as <-.
  - apply Hreach. constructor.
  - apply Hreach. eapply reach_child; [constructor|].
    vm_compute. apply list_elem_of_here.
Defined.

End walk_instances.

(** ** Pagination *)

Section pagination.
Import Hierarchy Graph More.
Implicit Types (st : tstate) (l : list child) (tok : option string).

(** The record that the loop body builds from an entry, field by field. *)
Lemma leaves_fields l :
  Forall2 (λ c r,
      room_id r = c_room_id c
      ∧ name r = match c_name c with Some "" => None | n => n end
      ∧ canonicalAlias r
        = match c_canonical_alias c with Some "" => None | a => a end
      ∧ topic r = default "" (c_topic c)
      ∧ memberCount r = default 0 (c_num_joined_members c))
    (filter (λ c, c_room_type c ≠ Some "m.space") l) (leaves l).
Proof.
  unfold leaves.
  rewrite (list_filter_iff (λ c, isSpace c = false)
             (λ c, c_room_type c ≠ Some "m.space")).
  - apply Forall2_fmap_r, Forall_Forall2_diag, Forall_forall. intros c _.
    unfold metadata. cbn. split_and!.
    + done.
    + by destruct (c_name c) as [[|]|].
    + by destruct (c_canonical_alias c) as [[|]|].
    + by destruct (c_topic c) as [[|]|].
    + done.
  - intros c. unfold isSpace. by rewrite bool_decide_eq_false.
Qed.

Lemma recurseHierarchy_fresh (srv : server) fuel s st :
  s ∉ visitedSpaces st →
  recurseHierarchy srv (S fuel) s st
  = pageLoop srv (recurseHierarchy srv fuel) fuel s None (visit s st).
Proof.
  intros Hs. change (recurseHierarchy srv (S fuel) s st)
    with (if bool_decide (s ∈ visitedSpaces st) then Done st
          else pageLoop srv (recurseHierarchy srv fuel) fuel s None
                 (visit s st)).
  by rewrite bool_decide_eq_false_2.
Qed.

Lemma pagesFrom_serve_length (g : graph) s ps tok pages :
  g !! s = Some ps →
  pagesFrom (serve g) s tok pages →
  length pages + pageOf tok ≤ length ps `max` S (pageOf tok).
Proof.
  intros Hps Hp.
  induction Hp as [tok resp Hsrv Hlast | tok resp rest Hsrv Hmore Hp IH].
  - simpl. lia.
  - rewrite (serve_known g s ps tok Hps) in Hsrv. injection Hsrv as <-.
    cbn [next_batch] in Hmore, IH. case_bool_decide as Hk; [|done].
    change (pageOf (Some ("t" +:+ token (pageOf tok))))
      with (String.length (token (S (pageOf tok)))) in IH.
    rewrite length_token in IH. simpl. lia.
Qed.

(** Whether the walk below ends or throws, the requests to the space
    follow its pages from the first one on. *)
Lemma pageLoop_prefix (srv : server) s rec n tok pages st :
  (∀ x st, both (rec x st) (keeps s st)) →
  pagesFrom srv s tok pages →
  tok = None ∨ Js.truthy tok = true →
  s ∈ visitedSpaces st →
  both (pageLoop srv rec n s tok st)
    (λ st', ∃ k, 0 < k ∧ k ≤ length pages
                 ∧ toSpace s st'
                   = toSpace s st
                     ++ ((λ t, (s, t)) <$> take k (asked tok pages))).
Proof.
  intros Hrec Hp. revert n st.
  induction Hp as [tok resp Hsrv Hlast | tok resp rest Hsrv Hmore Hp IH];
    intros n st Htok Hs.
  - destruct n as [|n]; [done|]. cbn [pageLoop].
    replace (if Js.truthy tok then tok else None) with tok
      by (destruct Htok as [-> | ->]; done).
    rewrite Hsrv.
    pose proof (forRooms_both (keeps s) (keeps_push s) rec (rooms resp)
                  (request s tok st) (request s tok st) Hrec
                  (reflexivity _)) as Hk.
    rewrite Hlast.
    destruct (forRooms rec (rooms resp) (request s tok st))
      as [st2|st2|]; [| |done];
      destruct (Hk Hs) as (_ & E & _); exists 1; simpl;
      (split_and!; [lia..|]);
      by rewrite E, toSpace_request, decide_True.
  - destruct n as [|n]; [done|]. cbn [pageLoop].
    replace (if Js.truthy tok then tok else None) with tok
      by (destruct Htok as [-> | ->]; done).
    rewrite Hsrv.
    pose proof (forRooms_both (keeps s) (keeps_push s) rec (rooms resp)
                  (request s tok st) (request s tok st) Hrec
                  (reflexivity _)) as Hk.
    rewrite Hmore.
    destruct (forRooms rec (rooms resp) (request s tok st))
      as [st2|st2|]; [| |done]; destruct (Hk Hs) as (Hs2 & E & _).
    + pose proof (IH n st2 (or_intror Hmore) Hs2) as Hrest.
      destruct (pageLoop srv rec n s (next_batch resp) st2)
        as [st3|st3|]; [| |done];
        destruct Hrest as (k & Hk0 & Hk1 & E3); exists (S k); simpl;
        (split_and!; [lia..|]);
        rewrite E3, E, toSpace_request, decide_True by done;
        by rewrite <- app_assoc.
    + exists 1. simpl. split_and!; [lia..|].
      by rewrite E, toSpace_request, decide_True.
Qed.

Lemma asked_length tok (pages : list response) :
  length (asked tok pages) = length pages.
Proof.
  revert tok. induction pages as [|p ps IH]; intros tok; simpl; [done|].
  by rewrite IH.
Qed.

Lemma pagesFrom_last (srv : server) s tok pages :
  pagesFrom srv s tok pages → Js.truthy (last pages ≫= next_batch) = false.
Proof.
  induction 1 as [? ? ? Hlast|? ? rest ? ? Hp IH].
  - exact Hlast.
  - destruct rest; [inversion Hp|]. exact IH.
Qed.

(** C5: a space whose listing comes in token-linked pages, over any finite
    space graph. The walk returns, and every request it makes to the space
    follows the pages: the first without a token, each further one with the
    token of the page before, none beyond the page that carries no token.
    When every listed sub-space has a listing, the walk ends normally, has
    asked for every page, and the records of the leaf rooms of all pages
    are in the result, in order, each with the id, name, alias, topic and
    member count of its entry. When the pages name no sub-space but the
    space itself, these requests and records are all there is. *)
Theorem pagination_complete (g : graph) fuel spaceId pages :
  enoughFuel g ≤ fuel →
  pagesFrom (serve g) spaceId None pages →
  ∃ st rs,
    traverse (serve g) fuel spaceId ∅ = Some st
    ∧ (∃ k, 0 < k ∧ k ≤ length pages
            ∧ toSpace spaceId st
              = (λ t, (spaceId, t)) <$> take k (asked None pages))
    ∧ length (asked None pages) = length pages
    ∧ Js.truthy (last pages ≫= next_batch) = false
    ∧ Forall2 (λ c r,
          room_id r = c_room_id c
          ∧ name r = match c_name c with Some "" => None | n => n end
          ∧ canonicalAlias r
            = match c_canonical_alias c with Some "" => None | a => a end
          ∧ topic r = default "" (c_topic c)
          ∧ memberCount r = default 0 (c_num_joined_members c))
        (filter (λ c, c_room_type c ≠ Some "m.space")
           (mjoin (rooms <$> pages))) rs
    ∧ (closed g →
       recurseHierarchy (serve g) fuel spaceId (start ∅) = Done st
       ∧ fetchRoomsInSpace (serve g) fuel spaceId ∅ = Some (allRooms st)
       ∧ toSpace spaceId st = (λ t, (spaceId, t)) <$> asked None pages
       ∧ rs `sublist_of` allRooms st)
    ∧ ((∀ c, c ∈ mjoin (rooms <$> pages) →
             c_room_type c = Some "m.space" → c_room_id c = spaceId) →
       recurseHierarchy (serve g) fuel spaceId (start ∅) = Done st
       ∧ requests st = (λ t, (spaceId, t)) <$> asked None pages
       ∧ allRooms st = rs).
Proof.
  intros Hfuel Hp.
  assert (recurseHierarchy (serve g) fuel spaceId (start ∅) ≠ OutOfFuel)
    as Hret.
  { apply recurseHierarchy_returns. simpl.
    rewrite difference_empty_L, size_dom. exact Hfuel. }
  assert (spaceId ∈ dom g) as Hdom.
  { apply elem_of_dom. destruct (g !! spaceId) eqn:E; [by eexists|].
    pose proof (serve_unknown g spaceId None E) as Hn.
    inversion Hp; congruence. }
  assert (length pages ≤ maxPages g + 1 ∧ 1 ≤ size g) as [Hlen Hsize].
  { apply elem_of_dom in Hdom as [ps Hps].
    pose proof (pagesFrom_serve_length g spaceId ps None pages Hps Hp).
    pose proof (maxPages_ge g spaceId ps Hps).
    assert (size g ≠ 0); [|simpl in *; lia].
    intros ->%map_size_empty_iff. by rewrite lookup_empty in Hps. }
  unfold enoughFuel in Hfuel.
  destruct fuel as [|fuel]; [lia|].
  assert (spaceId ∈ visitedSpaces (visit spaceId (start ∅))) as Hvis.
  { apply elem_of_union_l. by apply elem_of_singleton. }
  pose proof (pageLoop_prefix (serve g) spaceId _ fuel None pages
                (visit spaceId (start ∅))
                (recurseHierarchy_keeps (serve g) spaceId fuel) Hp
                (or_introl eq_refl) Hvis) as Hpre.
  pose proof (recurseHierarchy_saturates g (S fuel) spaceId (start ∅)) as Hsat.
  unfold traverse, fetchRoomsInSpace, traverse.
  revert Hret Hpre Hsat.
  rewrite (recurseHierarchy_fresh (serve g) fuel spaceId (start ∅))
    by set_solver.
  intros Hret Hpre Hsat.
  destruct (pageLoop (serve g) (recurseHierarchy (serve g) fuel) fuel
              spaceId None (visit spaceId (start ∅))) as [st|st|] eqn:Hrun;
    [| |done].
  - exists st, (leaves (mjoin (rooms <$> pages))).
    split_and!; [done|exact Hpre|apply asked_length
                |by eapply pagesFrom_last|apply leaves_fields| |].
    + intros _.
      destruct (pageLoop_chain (serve g) spaceId _ _ _ _ _ _
                  (recurseHierarchy_keeps (serve g) spaceId fuel) Hp
                  (or_introl eq_refl) Hvis Hrun) as (E & suf & Hsuf & Hsub).
      split_and!; [done|done|exact E|]. by rewrite Hsuf.
    + intros Hl. destruct fuel as [|fuel]; [lia|].
      rewrite (pageLoop_leaves (serve g) fuel spaceId (S fuel) None pages)
        in Hrun; [|done|by left| |].
      * injection Hrun as <-. done.
      * intros c Hc Hsp. rewrite (Hl c Hc); [done|].
        unfold isSpace in Hsp. by apply bool_decide_eq_true in Hsp.
      * lia.
  - exists st, (leaves (mjoin (rooms <$> pages))).
    split_and!; [done|exact Hpre|apply asked_length
                |by eapply pagesFrom_last|apply leaves_fields| |].
    + intros Hcl. destruct (Hsat Hcl Hdom).
    + intros Hl. destruct fuel as [|fuel]; [lia|].
      rewrite (pageLoop_leaves (serve g) fuel spaceId (S fuel) None pages)
        in Hrun; [done|done|by left| |].
      * intros c Hc Hsp. rewrite (Hl c Hc); [done|].
        unfold isSpace in Hsp. by apply bool_decide_eq_true in Hsp.
      * lia.
Qed.

Lemma catalogue_pages :
  pagesFrom (serve catalogue) "!root" None cataloguePages.
Proof.
  apply pages_more; [reflexivity..|].
  apply pages_more; [reflexivity..|].
  apply pages_last; reflexivity.
Defined.

Lemma catalogue_closed : closed catalogue.
Proof. unfold closed. apply (bool_decide_unpack _). by vm_compute. Qed.

Lemma pagination_complete_witness :
  ∃ st,
    recurseHierarchy (serve catalogue) 7 "!root" (start ∅) = Done st
    ∧ fetchRoomsInSpace (serve catalogue) 7 "!root" ∅ = Some (allRooms st)
    ∧ toSpace "!root" st
      = [("!root", None); ("!root", Some "t"); ("!root", Some "tt")]
    ∧ requests st
      = [("!root", None); ("!root", Some "t"); ("!S", None);
         ("!root", Some "tt")]
    ∧ allRooms st
      = [ {| room_id := "!a"; name := Some "Lounge";
             canonicalAlias := Some "#lounge:example.org";
             topic := "Welcome"; memberCount := 12 |};
          {| room_id := "!s1"; name := Some "Annex"; canonicalAlias := None;
             topic := ""; memberCount := 0 |};
          {| room_id := "!b"; name := None; canonicalAlias := None;
             topic := ""; memberCount := 0 |};
          {| room_id := "!c"; name := None; canonicalAlias := None;
             topic := ""; memberCount := 0 |} ].
Proof.
  destruct (pagination_complete catalogue 7 "!root" cataloguePages)
    as (st & rs & _ & _ & _ & _ & _ & Hclosed & _).
  - vm_compute. lia.
  - exact catalogue_pages.
  - destruct (Hclosed catalogue_closed) as (Hd & Hf & Hchain & _).
    exists st. split_and!; [exact Hd|exact Hf|exact Hchain| |];
      vm_compute in Hd; by injection Hd as <-.
Defined.

End pagination.

(** ** The walk of [room-monitor.js] *)

Section state_walk.
Import StateApi.
Implicit Types (st : wstate) (subs acc : list room).

#[global] Instance state_extends_preorder : PreOrder extends.
Proof.
  split.
  - intros st. split; [done|]. exists []. rewrite app_nil_r.
    split_and!; [done|constructor|]. intros x. rewrite elem_of_nil. tauto.
  - intros a b c [Hab (n1 & E1 & N1 & M1)] [Hbc (n2 & E2 & N2 & M2)].
    split; [by etrans|]. exists (n1 ++ n2). split_and!.
    + by rewrite E2, E1, app_assoc.
    + apply NoDup_app. split_and!; [done| |done].
      intros x H1%M1 H2%M2. set_solver.
    + intros x. rewrite elem_of_app, M1, M2.
      destruct (decide (x ∈ visitedSpaces b)); set_solver.
Qed.

Lemma extends_visit s st : s ∉ visitedSpaces st → extends st (visit s st).
Proof.
  intros Hs. split; [simpl; set_solver|]. exists [s].
  split_and!; [done|apply NoDup_singleton|].
  intros x. rewrite list_elem_of_singleton. simpl. set_solver.
Qed.

Lemma forSubspaces_extends rec subs acc st0 st rs st' :
  (∀ s st rs st', rec s st = Some (rs, st') → extends st st') →
  extends st0 st →
  forSubspaces rec subs acc st = Some (rs, st') → extends st0 st'.
Proof.
  intros Hrec. revert acc st. induction subs as [|s subs IH]; intros acc st Hst.
  - simpl. by intros [= _ <-].
  - simpl. destruct (rec (room_id s) st) as [[rs1 st1]|] eqn:E; [simpl|done].
    apply IH. etrans; [exact Hst|]. by eapply Hrec.
Qed.

(** The visited set grows, and the state of a space is requested when, and
    only when, the space enters the visited set. *)
Lemma fetchRoomsInSpace_extends srv fuel s st rs st' :
  fetchRoomsInSpace srv fuel s st = Some (rs, st') → extends st st'.
Proof.
  revert s st rs st'. induction fuel as [|fuel IH]; intros s st rs st'; [done|].
  cbn [fetchRoomsInSpace]. case_bool_decide as Hs.
  { intros [= _ <-]. reflexivity. }
  pose proof (extends_visit s st Hs) as Hv.
  destruct (srv s) as [[es|]|]; [|by intros [= _ <-]..].
  by apply forSubspaces_extends.
Qed.

Lemma forSubspaces_returns rec (V : gset string) subs acc st :
  (∀ s st, V ⊆ visitedSpaces st → is_Some (rec s st)) →
  (∀ s st rs st', rec s st = Some (rs, st') → extends st st') →
  V ⊆ visitedSpaces st →
  is_Some (forSubspaces rec subs acc st).
Proof.
  intros Hret Hext. revert acc st.
  induction subs as [|s subs IH]; intros acc st HV; [by eexists|].
  simpl. destruct (Hret (room_id s) st HV) as [[rs1 st1] E]. rewrite E. simpl.
  apply IH. apply Hext in E as [Hsub _]. set_solver.
Qed.

Lemma fetchRoomsInSpace_returns (g : gmap string (list event)) fuel s st :
  size (dom g ∖ visitedSpaces st) + 1 ≤ fuel →
  is_Some (fetchRoomsInSpace (serve g) fuel s st).
Proof.
  revert s st. induction fuel as [|fuel IH]; intros s st Hfuel; [lia|].
  cbn [fetchRoomsInSpace]. case_bool_decide as Hs; [by eexists|].
  unfold serve. destruct (g !! s) as [es|] eqn:Hg; simpl; [|by eexists].
  apply (forSubspaces_returns _ ({[s]} ∪ visitedSpaces st)); [| |done].
  - intros s' st' HV. apply IH.
    assert (dom g ∖ visitedSpaces st' ⊂ dom g ∖ visitedSpaces st) as Hlt.
    { apply elem_of_dom_2 in Hg. set_solver. }
    apply subset_size in Hlt. lia.
  - intros s' st1 rs st2. apply fetchRoomsInSpace_extends.
Qed.

(** The class of [room-monitor.js] over a finite graph, cycles included:
    the walk returns, and it requests the state of a space once if it
    visits the space and never otherwise. *)
Lemma state_walk_once (g : gmap string (list event)) fuel root :
  size g + 1 ≤ fuel →
  ∃ rs st,
    fetchRoomsInSpace (serve g) fuel root start = Some (rs, st)
    ∧ NoDup (asked st)
    ∧ ∀ s, s ∈ asked st ↔ s ∈ visitedSpaces st.
Proof.
  intros Hfuel.
  destruct (fetchRoomsInSpace_returns g fuel root start) as [[rs st] E].
  { simpl. by rewrite difference_empty_L, size_dom. }
  exists rs, st. split; [exact E|].
  apply fetchRoomsInSpace_extends in E as [_ (new & Ea & Hnd & Hnew)].
  simpl in Ea. subst new. split; [done|].
  intros s. rewrite Hnew. simpl. set_solver.
Qed.

End state_walk.

(** * Further properties of the monitor *)

Section monitor_more.
Import Hierarchy Monitor More.
Implicit Types (m : RoomMonitor) (w : world) (rs : list room).

Lemma foldl_add_fresh (l acc : list string) :
  NoDup (acc ++ l) → foldl Js.add acc l = acc ++ l.
Proof.
  revert acc. induction l as [|x l IH]; intros acc Hnd; simpl.
  - by rewrite app_nil_r.
  - assert (Js.add acc x = acc ++ [x]) as ->.
    { unfold Js.add. rewrite (proj2 (has_false acc x)); [done|].
      apply NoDup_app in Hnd as (_ & Hd & _). intros Hx.
      apply (Hd x Hx). by left. }
    rewrite IH; [by rewrite <- app_assoc|]. by rewrite <- app_assoc.
Qed.

Lemma SetOf_NoDup (l : list string) : NoDup l → Js.SetOf l = l.
Proof. intros Hnd. unfold Js.SetOf. by rewrite foldl_add_fresh. Qed.

Lemma omap_asString (l : list string) : omap asString (JStr <$> l) = l.
Proof. induction l as [|x l IH]; [done|]. simpl. f_equal. exact IH. Qed.

Lemma loadState_snapshot m0 w mOld wOld :
  disk w = Stored (snapshot mOld wOld) →
  NoDup (lastCheckedRooms mOld) →
  Json.truthy (roomNames mOld) = true →
  loadState m0 w
  = (true, set_roomNames (roomNames mOld)
             (set_lastCheckedRooms (lastCheckedRooms mOld) m0)).
Proof.
  intros Hd Hnd Hn. unfold loadState. rewrite Hd.
  unfold snapshot. cbn [prop assoc String.eqb]. simpl.
  rewrite omap_asString, SetOf_NoDup by done. by rewrite Hn.
Qed.

(** X1: what [saveState] writes, [loadState] reads back: the same known ids
    in the same order and the same [roomNames], whatever the monitor that
    loads held before. *)
Theorem save_load_round_trip m w m0 :
  disk_writable w = true →
  NoDup (lastCheckedRooms m) →
  Json.truthy (roomNames m) = true →
  loadState m0 (saveState m w)
  = (true, set_roomNames (roomNames m)
             (set_lastCheckedRooms (lastCheckedRooms m) m0)).
Proof.
  intros Hw Hnd Hn. apply (loadState_snapshot m0 _ m w); [|done..].
  unfold saveState. by rewrite Hw.
Qed.

Lemma save_load_round_trip_witness :
  loadState Example.fresh
    (saveState (set_roomNames (JObj [("!r1", JStr "Alpha")])
                  (set_lastCheckedRooms ["!r1"; "!r2"] Example.fresh))
       (Example.world0 Example.none))
  = (true, set_roomNames (JObj [("!r1", JStr "Alpha")])
             (set_lastCheckedRooms ["!r1"; "!r2"] Example.fresh)).
Proof.
  apply (save_load_round_trip
           (set_roomNames (JObj [("!r1", JStr "Alpha")])
              (set_lastCheckedRooms ["!r1"; "!r2"] Example.fresh))
           (Example.world0 Example.none) Example.fresh).
  - reflexivity.
  - apply (bool_decide_unpack _). by vm_compute.
  - reflexivity.
Defined.

(** A cycle leaves the configuration and the scheduler's flags alone. *)
Lemma checkForNewRooms_flags fuel shouldAlert m w res m' w' :
  checkForNewRooms fuel shouldAlert m w = Some (res, m', w') →
  isRunning m' = isRunning m
  ∧ monitoringInterval m' = monitoringInterval m
  ∧ observedSpace m' = observedSpace m
  ∧ notificationRoom m' = notificationRoom m
  ∧ checkInterval m' = checkInterval m.
Proof.
  unfold checkForNewRooms. destruct (negb (configured m)).
  { by intros [= _ <- _]. }
  destruct (fetchRoomsInSpace _ _ _ _) as [rs|]; [simpl|done].
  destruct (recordNames _ _) as [names []]; by intros [= _ <- _].
Qed.

(** X2: a process that starts with the state file of an earlier run does
    not take its first cycle for a baseline: it announces the fetched rooms
    that the file does not know, and only those. *)
Theorem restart_announces_unknown_only fuel space notif ivl mOld wOld fs w rs :
  configured (constructor (Some space) (Some notif) ivl) = true →
  disk w = Stored (snapshot mOld wOld) →
  NoDup (lastCheckedRooms mOld) →
  roomNames mOld = JObj fs →
  fetchRoomsInSpace (remote w) fuel space ∅ = Some rs →
  ∃ m' w',
    startMonitoring fuel (constructor (Some space) (Some notif) ivl) w
      = Some (m', w')
    ∧ outbox w'
      = outbox w ++ sent (constructor (Some space) (Some notif) ivl)
                      (newRoomsOf (lastCheckedRooms mOld) rs)
    ∧ lastCheckedRooms m' = currentRoomIdsOf rs
    ∧ isRunning m' = true.
Proof.
  intros Hc Hd Hnd Hfs Hf.
  unfold startMonitoring. rewrite Hc. simpl isRunning. cbn iota.
  rewrite (loadState_snapshot _ w mOld wOld Hd Hnd) by by rewrite Hfs.
  set (m2 := set_roomNames _ _).
  rewrite (checkForNewRooms_unfold fuel true m2 w rs Hc Hf).
  change (lastCheckedRooms m2) with (lastCheckedRooms mOld).
  change (roomNames m2) with (roomNames mOld). rewrite Hfs.
  destruct (recordNames_object (newRoomsOf (lastCheckedRooms mOld) rs) fs)
    as [fs' ->].
  do 2 eexists. split; [reflexivity|]. split_and!; [|done..].
  exact (completed_outbox true rs m2 w (JObj fs')).
Qed.

Lemma restart_announces_unknown_only_witness :
  ∃ m' w',
    startMonitoring 3 Example.fresh
      (set_remote Example.moved Example.baselined.2) = Some (m', w')
    ∧ outbox w' = [] ++ sent Example.fresh [Example.plain "!r4"]
    ∧ lastCheckedRooms m' = ["!r2"; "!r3"; "!r4"]
    ∧ isRunning m' = true.
Proof.
  exact (restart_announces_unknown_only 3 "!root" "!notif" None
           Example.baselined.1.2 (Example.world0 Example.three) []
           (set_remote Example.moved Example.baselined.2)
           [Example.plain "!r2"; Example.plain "!r3"; Example.plain "!r4"]
           eq_refl eq_refl (NoDup_SetOf _) eq_refl eq_refl).
Defined.

Lemma recordNames_primitive (l : list room) (names : json) (r : room) :
  primitive names = true → r ∈ l → named r = true →
  recordNames l names = (names, false).
Proof.
  intros Hp Hr Hn. induction l as [|x l IH]; [by apply elem_of_nil in Hr|].
  cbn [recordNames]. fold (named x).
  destruct (named x) eqn:Hx.
  - by destruct names.
  - apply elem_of_cons in Hr as [->|Hr]; [congruence|]. by apply IH.
Qed.

Lemma set_roomNames_same m : set_roomNames (roomNames m) m = m.
Proof. by destruct m. Qed.

(** X4: when [roomNames] holds a primitive (as after loading a state file
    whose [roomNames] is a string, a number or [true]), a cycle that finds
    a new room with a name of its own aborts at the assignment: it returns
    the error result, sends nothing, and leaves the known set and the file
    as they were, so the next cycle over the same hierarchy aborts again. *)
Theorem primitive_roomNames_aborts fuel shouldAlert m w rs r :
  configured m = true →
  fetchRoomsInSpace (remote w) fuel (default "" (observedSpace m)) ∅
    = Some rs →
  primitive (roomNames m) = true →
  r ∈ newRoomsOf (lastCheckedRooms m) rs →
  named r = true →
  checkForNewRooms fuel shouldAlert m w
  = Some (Some {| r_checked := 0; r_new := 0; r_error := true;
                  r_timestamp := clock w |}, m, w).
Proof.
  intros Hc Hf Hp Hr Hn.
  rewrite (checkForNewRooms_unfold _ _ _ _ rs Hc Hf).
  rewrite (recordNames_primitive _ _ r Hp Hr Hn).
  unfold aborted. by rewrite set_roomNames_same.
Qed.

Lemma primitive_roomNames_aborts_witness :
  roomNames (loadState Example.fresh (set_disk oddNames
                                        (Example.world0 alpha))).2
  = JStr "x"
  ∧ checkForNewRooms 3 true
      (loadState Example.fresh (set_disk oddNames (Example.world0 alpha))).2
      (set_disk oddNames (Example.world0 alpha))
    = Some (Some {| r_checked := 0; r_new := 0; r_error := true;
                    r_timestamp := clock (Example.world0 alpha) |},
            (loadState Example.fresh
               (set_disk oddNames (Example.world0 alpha))).2,
            set_disk oddNames (Example.world0 alpha)).
Proof.
  split; [reflexivity|].
  exact (primitive_roomNames_aborts 3 true
           (loadState Example.fresh
              (set_disk oddNames (Example.world0 alpha))).2
           (set_disk oddNames (Example.world0 alpha))
           [metadata (namedLeaf "!r1" "Alpha")]
           (metadata (namedLeaf "!r1" "Alpha"))
           eq_refl eq_refl eq_refl (list_elem_of_here _ _) eq_refl).
Defined.

Lemma notifyAll_clock l m w : clock (notifyAll l m w) = clock w.
Proof. by destruct (notifyAll_rest l m w) as (_ & _ & _ & ->). Qed.

(** X5: a write of the state file that fails does not change the cycle:
    the result, the monitor it leaves and the messages it sends are those of
    the cycle whose write succeeds; only the file stays as it was. *)
Theorem failed_save_keeps_cycle fuel shouldAlert m w res m' w' :
  checkForNewRooms fuel shouldAlert m w = Some (res, m', w') →
  ∃ w'',
    checkForNewRooms fuel shouldAlert m (set_writable false w)
      = Some (res, m', w'')
    ∧ outbox w'' = outbox w'
    ∧ disk w'' = disk w.
Proof.
  unfold checkForNewRooms. cbn [remote set_writable clock].
  destruct (negb (configured m)).
  { intros [= <- <- <-]. by eexists. }
  destruct (fetchRoomsInSpace _ _ _ _) as [rs|]; [simpl|done].
  destruct (recordNames _ _) as [names []].
  - intros [= <- <- <-]. eexists. split; [|split].
    + f_equal. f_equal. f_equal. f_equal.
      rewrite !saveState_clock.
      destruct (shouldAlert && _); [|done].
      by rewrite !notifyAll_clock.
    + rewrite !saveState_outbox.
      destruct (shouldAlert && _); [|done].
      by rewrite !notifyAll_outbox.
    + destruct (shouldAlert && _); [|done].
      destruct (notifyAll_rest (newRoomsOf (lastCheckedRooms m) rs)
                  (set_roomNames names m) (set_writable false w))
        as (_ & Hd & Hw & _).
      unfold saveState. rewrite Hw. exact Hd.
  - intros [= <- <- <-]. by eexists.
Qed.

End monitor_more.

Section loop_more.
Import Hierarchy Monitor Loop.

(** X6: [stopMonitoring] does not reach a cycle in flight: resumed after the
    stop, the cycle does what it would have done without it (it sends its
    notifications, replaces the known set and writes the file), and the
    monitor stays stopped. *)
Theorem stop_keeps_cycles_in_flight fuel t m w :
  resume fuel t (stopMonitoring m) w
  = (λ '(p, m', w'), (p, stopMonitoring m', w')) <$> resume fuel t m w.
Proof.
  destruct t as [sa|rest cur n|[|r rest] cur n|cur n]; try reflexivity.
  cbn [resume]. change (observedSpace (stopMonitoring m)) with (observedSpace m).
  destruct (fetchRoomsInSpace _ _ _ _) as [rs|]; [simpl|done].
  f_equal. unfold afterFetch.
  change (roomNames (stopMonitoring m)) with (roomNames m).
  change (lastCheckedRooms (stopMonitoring m)) with (lastCheckedRooms m).
  destruct (recordNames _ _) as [names []]; [|done].
  destruct (newRoomsOf _ _) as [|r rest]; [done|].
  by destruct sa.
Qed.

End loop_more.

Section monitor_more_instances.
Import Hierarchy Monitor More.

Lemma failed_save_keeps_cycle_witness :
  ∃ w'',
    checkForNewRooms 3 true Example.fresh
      (set_writable false (Example.world0 Example.three))
    = Some ((completed true Example.threeRooms Example.fresh
               (Example.world0 Example.three) (JObj [])).1, w'')
    ∧ outbox w''
      = outbox (completed true Example.threeRooms Example.fresh
                  (Example.world0 Example.three) (JObj [])).2
    ∧ disk w'' = Missing.
Proof.
  exact (failed_save_keeps_cycle 3 true Example.fresh
           (Example.world0 Example.three)
           (completed true Example.threeRooms Example.fresh
              (Example.world0 Example.three) (JObj [])).1.1
           (completed true Example.threeRooms Example.fresh
              (Example.world0 Example.three) (JObj [])).1.2
           (completed true Example.threeRooms Example.fresh
              (Example.world0 Example.three) (JObj [])).2
           eq_refl).
Defined.

End monitor_more_instances.

(** * Further properties of the walk over [/hierarchy] *)

Section pages_more.
Import Hierarchy More.
Variable srv : server.
Implicit Types (st : tstate) (l : list child) (tok : option string).

Lemma pageLoop_cut fuel s n tok pages st :
  pagesCut srv s tok pages →
  tok = None ∨ Js.truthy tok = true →
  (∀ c, c ∈ mjoin (rooms <$> pages) → isSpace c = true →
        c_room_id c ∈ visitedSpaces st) →
  length pages < n →
  pageLoop srv (recurseHierarchy srv (S fuel)) n s tok st
  = Threw {| visitedSpaces := visitedSpaces st;
             allRooms := allRooms st ++ leaves (mjoin (rooms <$> pages));
             requests :=
               requests st
               ++ ((λ t, (s, t))
                   <$> (asked tok pages
                        ++ [from_option next_batch tok (last pages)])) |}
  ∧ srv s (from_option next_batch tok (last pages)) = None.
Proof.
  intros Hp. revert n st.
  induction Hp as [tok Hsrv | tok resp rest Hsrv Hmore Hp IH];
    intros n st Htok Hl Hn.
  - destruct n as [|n]; [lia|]. cbn [pageLoop].
    replace (if Js.truthy tok then tok else None) with tok
      by (destruct Htok as [-> | ->]; done).
    rewrite Hsrv. split; [|exact Hsrv]. unfold request. simpl.
    by rewrite app_nil_r.
  - destruct n as [|n]; [lia|]. cbn [pageLoop].
    replace (if Js.truthy tok then tok else None) with tok
      by (destruct Htok as [-> | ->]; done).
    assert (from_option next_batch tok (last (resp :: rest))
            = from_option next_batch (next_batch resp) (last rest)) as ->.
    { rewrite last_cons. by destruct (last rest). }
    rewrite Hsrv, forRooms_leaves.
    + rewrite Hmore.
      edestruct (IH n) as [E Hnone]; [by right| |simpl in Hn; lia|].
      2:{ rewrite E. split; [|exact Hnone]. simpl.
          by rewrite leaves_app, <- !app_assoc. }
      intros c Hc. apply Hl. simpl. apply elem_of_app. by right.
    + intros c Hc. apply Hl. simpl. apply elem_of_app. by left.
Qed.

(** X7: the pages of a listing that were read name no sub-space but the
    space itself, and the request for the next page fails (the first one
    included). Then [fetchRoomsInSpace] does not raise: it returns, in
    order, one record for each leaf room of the pages read, with the id,
    name, alias, topic and member count of its entry; the requests are one
    per page read and the one that failed, which is the last. *)
Theorem page_failure_keeps_rooms fuel spaceId pages :
  pagesCut srv spaceId None pages →
  (∀ c, c ∈ mjoin (rooms <$> pages) →
        c_room_type c = Some "m.space" → c_room_id c = spaceId) →
  length pages + 1 < fuel →
  ∃ st,
    recurseHierarchy srv fuel spaceId (start ∅) = Threw st
    ∧ fetchRoomsInSpace srv fuel spaceId ∅ = Some (allRooms st)
    ∧ requests st
      = (λ t, (spaceId, t))
        <$> (asked None pages ++ [from_option next_batch None (last pages)])
    ∧ srv spaceId (from_option next_batch None (last pages)) = None
    ∧ Forall2 (λ c r,
          room_id r = c_room_id c
          ∧ name r = match c_name c with Some "" => None | n => n end
          ∧ canonicalAlias r
            = match c_canonical_alias c with Some "" => None | a => a end
          ∧ topic r = default "" (c_topic c)
          ∧ memberCount r = default 0 (c_num_joined_members c))
        (filter (λ c, c_room_type c ≠ Some "m.space")
           (mjoin (rooms <$> pages))) (allRooms st).
Proof.
  intros Hp Hl Hfuel. destruct fuel as [|[|fuel]]; [lia..|].
  unfold fetchRoomsInSpace, traverse.
  rewrite recurseHierarchy_fresh by set_solver.
  destruct (pageLoop_cut fuel spaceId (S fuel) None pages
              (visit spaceId (start ∅)) Hp) as [E Hnone];
    [by left| |lia|].
  - intros c Hc Hs. rewrite (Hl c Hc).
    + apply elem_of_union_l. by apply elem_of_singleton.
    + unfold isSpace in Hs. by apply bool_decide_eq_true in Hs.
  - rewrite E. eexists. split; [reflexivity|].
    split_and!; [done|done|exact Hnone|]. apply leaves_fields.
Qed.

End pages_more.

Section graph_result.
Import Hierarchy Graph More.
Variable g : graph.
Implicit Types (st : tstate) (l : list child).

Lemma listed_app (a b : list string) :
  listed g (a ++ b) = listed g a ++ listed g b.
Proof. unfold listed. apply bind_app. Qed.

Lemma forRooms_listed (P : string → Prop) rec l st :
  (∀ c st', c ∈ dom g → P c →
     completes (rec c st')
       (λ st'', ∃ new, firsts st'' = firsts st' ++ new
                       ∧ allRooms st'' ≡ₚ allRooms st' ++ listed g new
                       ∧ ∀ v, v ∈ new → P v)) →
  (∀ c, c ∈ l → isSpace c = true → c_room_id c ∈ dom g ∧ P (c_room_id c)) →
  completes (forRooms rec l st)
    (λ st', ∃ new, firsts st' = firsts st ++ new
                   ∧ allRooms st' ≡ₚ allRooms st ++ leaves l ++ listed g new
                   ∧ ∀ v, v ∈ new → P v).
Proof.
  intros Hrec. revert st. induction l as [|c l IH]; intros st Hl.
  - simpl. exists []. rewrite !app_nil_r. split_and!; [done..|].
    by intros v ?%elem_of_nil.
  - assert (∀ c', c' ∈ l → isSpace c' = true →
                  c_room_id c' ∈ dom g ∧ P (c_room_id c')) as Hl'
      by (intros c' Hc'; apply Hl; by right).
    cbn [forRooms]. destruct (isSpace c) eqn:Ec.
    + destruct (Hl c (list_elem_of_here _ _) Ec) as [Hd HP].
      pose proof (Hrec (c_room_id c) st Hd HP) as Hc.
      destruct (rec (c_room_id c) st) as [st1|st1|]; [|done..].
      destruct Hc as (n1 & F1 & A1 & P1).
      pose proof (IH st1 Hl') as Hrest.
      destruct (forRooms rec l st1) as [st2|st2|]; [|done..].
      destruct Hrest as (n2 & F2 & A2 & P2). simpl.
      exists (n1 ++ n2). split_and!.
      * by rewrite F2, F1, app_assoc.
      * rewrite A2, A1, listed_app. unfold leaves at 2.
        rewrite filter_cons_False by congruence. fold (leaves l).
        rewrite <- !app_assoc. f_equiv.
        rewrite !app_assoc. f_equiv. apply Permutation_app_comm.
      * intros v [Hv|Hv]%elem_of_app; auto.
    + pose proof (IH (push (metadata c) st) Hl') as Hrest.
      destruct (forRooms rec l _) as [st2|st2|]; [|done..].
      destruct Hrest as (n2 & F2 & A2 & P2). simpl.
      exists n2. split_and!; [exact F2| |exact P2].
      rewrite A2. simpl. unfold leaves at 2.
      rewrite filter_cons_True by done. simpl. fold (leaves l).
      by rewrite <- !app_assoc.
Qed.

Lemma pageLoop_listed (P : string → Prop) rec s ps n tok st :
  g !! s = Some ps →
  (∀ c st', c ∈ dom g → P c →
     completes (rec c st')
       (λ st'', ∃ new, firsts st'' = firsts st' ++ new
                       ∧ allRooms st'' ≡ₚ allRooms st' ++ listed g new
                       ∧ ∀ v, v ∈ new → P v)) →
  (∀ c, c ∈ mjoin ps → isSpace c = true →
        c_room_id c ∈ dom g ∧ P (c_room_id c)) →
  tok = None ∨ (∃ k, tok = Some (token (S k))) →
  completes (pageLoop (serve g) rec n s tok st)
    (λ st', ∃ new,
       firsts st' = firsts st ++ (if tok is None then [s] else []) ++ new
       ∧ allRooms st'
         ≡ₚ allRooms st ++ leaves (mjoin (drop (pageOf tok) ps))
              ++ listed g new
       ∧ ∀ v, v ∈ new → P v).
Proof.
  intros Hps Hrec Hcl. revert tok st.
  induction n as [|n IH]; intros tok st Htok; [done|].
  cbn [pageLoop].
  replace (if Js.truthy tok then tok else None) with tok
    by (destruct Htok as [-> | [k ->]]; done).
  rewrite (serve_known g s ps tok Hps). cbn [rooms next_batch].
  set (k := pageOf tok).
  assert (∀ c, c ∈ default [] (ps !! k) → c ∈ mjoin ps) as Hpage.
  { intros c Hc. destruct (ps !! k) as [page|] eqn:Ek;
      [|by apply elem_of_nil in Hc].
    apply list_elem_of_join. exists page. split; [done|].
    by eapply list_elem_of_lookup_2. }
  pose proof (forRooms_listed P rec (default [] (ps !! k))
                (request s tok st) Hrec
                (λ c Hc, Hcl c (Hpage c Hc))) as Hl.
  destruct (forRooms rec _ (request s tok st)) as [st2|st2|]; [|done..].
  destruct Hl as (n1 & F1 & A1 & P1).
  rewrite firsts_request, <- app_assoc in F1. cbn [request allRooms] in A1.
  case_bool_decide as Hk.
  - rewrite truthy_token.
    assert (Some (token (S k)) = None
            ∨ ∃ k', Some (token (S k)) = Some (token (S k'))) as Htok'
      by (right; by eexists).
    pose proof (IH (Some (token (S k))) st2 Htok') as Hrest.
    destruct (pageLoop _ _ _ _ _ st2) as [st3|st3|]; [|done..].
    destruct Hrest as (n2 & F2 & A2 & P2). unfold pageOf at 1 in A2.
    rewrite length_token in A2. simpl in F2. simpl.
    exists (n1 ++ n2). split_and!.
    + rewrite F2, F1. by rewrite <- !app_assoc.
    + destruct (lookup_lt_is_Some_2 ps k) as [page Ek]; [lia|].
      rewrite (drop_S _ _ _ Ek). rewrite Ek in A1. simpl in A1. simpl.
      rewrite A2, A1, leaves_app, listed_app. rewrite <- !app_assoc.
      f_equiv. f_equiv. rewrite !app_assoc. f_equiv.
      apply Permutation_app_comm.
    + intros v [Hv|Hv]%elem_of_app; auto.
  - simpl. exists n1. split_and!; [exact F1| |exact P1].
    rewrite A1. f_equiv. f_equiv.
    destruct (ps !! k) as [page|] eqn:Ek.
    + rewrite (drop_S _ _ _ Ek). simpl.
      rewrite drop_ge by lia. simpl. by rewrite app_nil_r.
    + apply lookup_ge_None in Ek. by rewrite drop_ge by lia.
Qed.

Lemma recurseHierarchy_listed root fuel s st :
  closed g →
  s ∈ dom g →
  reach g root s →
  completes (recurseHierarchy (serve g) fuel s st)
    (λ st', ∃ new, firsts st' = firsts st ++ new
                   ∧ allRooms st' ≡ₚ allRooms st ++ listed g new
                   ∧ ∀ v, v ∈ new → reach g root v).
Proof.
  intros Hcl. revert s st.
  induction fuel as [|fuel IH]; intros s st Hs Hreach; [done|].
  cbn [recurseHierarchy]. case_bool_decide as Hv.
  { simpl. exists []. rewrite !app_nil_r. split_and!; [done..|].
    by intros v ?%elem_of_nil. }
  apply elem_of_dom in Hs as [ps Hps].
  assert (∀ c, c ∈ mjoin ps → isSpace c = true →
               c_room_id c ∈ dom g ∧ reach g root (c_room_id c)) as Hps'.
  { pose proof (map_Forall_lookup_1 _ _ _ _ Hcl Hps) as Hall. simpl in Hall.
    intros c Hc Hsp. split.
    - by apply (proj1 (Forall_forall _ _) Hall).
    - eapply reach_child; [exact Hreach|].
      unfold spaceChildren, entries. rewrite Hps. simpl.
      apply list_elem_of_fmap. exists c. split; [done|].
      by apply list_elem_of_filter. }
  eapply completes_mono;
    [|apply (pageLoop_listed (reach g root) _ s ps fuel None (visit s st)
               Hps (λ c st' Hc Hr, IH c st' Hc Hr) Hps'); by left].
  intros st' (new & F & A & HP). simpl in F, A.
  exists (s :: new). split_and!.
  - exact F.
  - rewrite A. unfold listed at 2. simpl. fold (listed g new).
    unfold entries. by rewrite Hps.
  - intros v [->|Hin]%elem_of_cons; auto.
Qed.

(** X8: over a graph in which every listed sub-space has a listing, the
    walk expands exactly the spaces that can be reached from the root, each
    once, and returns, up to order, the records of the leaf rooms that
    these spaces list, one per listing: a room that two of them list is
    returned twice. *)
Theorem closed_graph_result root fuel :
  closed g →
  root ∈ dom g →
  enoughFuel g ≤ fuel →
  ∃ st,
    recurseHierarchy (serve g) fuel root (start ∅) = Done st
    ∧ fetchRoomsInSpace (serve g) fuel root ∅ = Some (allRooms st)
    ∧ NoDup (firsts st)
    ∧ (∀ v, v ∈ firsts st ↔ reach g root v)
    ∧ allRooms st ≡ₚ listed g (firsts st).
Proof.
  intros Hcl Hroot Hfuel.
  assert (recurseHierarchy (serve g) fuel root (start ∅) ≠ OutOfFuel) as Hret.
  { apply recurseHierarchy_returns. simpl.
    rewrite difference_empty_L, size_dom. exact Hfuel. }
  pose proof (recurseHierarchy_listed root fuel root (start ∅) Hcl Hroot
                (reach_root g root)) as Hlist.
  pose proof (recurseHierarchy_saturates g fuel root (start ∅) Hcl Hroot)
    as Hsat.
  pose proof (recurseHierarchy_extends (serve g) fuel root (start ∅)) as Hext.
  unfold fetchRoomsInSpace, traverse.
  destruct (recurseHierarchy (serve g) fuel root (start ∅))
    as [st|st|]; [|done..].
  destruct Hlist as (new & F & A & HP). destruct Hsat as [Hin Hsat].
  destruct Hext as [_ (new' & F' & Hnd & Hnew)].
  simpl in F, A, F'. subst new'. rewrite <- F in *.
  exists st. split_and!; [done..| |done].
  intros v. split; [apply HP|].
  intros Hv. apply Hnew. split; [|simpl; set_solver].
  by eapply saturated_reach.
Qed.

End graph_result.

Section walk_more_instances.
Import Hierarchy Graph More.

Lemma halfPaged_cut :
  pagesCut halfPaged "!root" None
    [ {| rooms := [lounge; bare "!b"; Example.space "!root"];
         next_batch := Some "t" |} ].
Proof.
  eapply cut_later; [reflexivity..|]. apply cut_here. reflexivity.
Defined.

Lemma page_failure_keeps_rooms_witness :
  ∃ st,
    recurseHierarchy halfPaged 3 "!root" (start ∅) = Threw st
    ∧ fetchRoomsInSpace halfPaged 3 "!root" ∅ = Some (allRooms st)
    ∧ requests st = [("!root", None); ("!root", Some "t")]
    ∧ halfPaged "!root" (Some "t") = None
    ∧ allRooms st
      = [ {| room_id := "!a"; name := Some "Lounge";
             canonicalAlias := Some "#lounge:example.org";
             topic := "Welcome"; memberCount := 12 |};
          {| room_id := "!b"; name := None; canonicalAlias := None;
             topic := ""; memberCount := 0 |} ].
Proof.
  destruct (page_failure_keeps_rooms halfPaged 3 "!root" _ halfPaged_cut)
    as (st & Ht & Hf & Hr & Hn & _).
  - intros c Hc Hs. simpl in Hc.
    repeat (apply elem_of_cons in Hc as [-> | Hc]; [try done|]).
    by apply elem_of_nil in Hc.
  - simpl. lia.
  - exists st. split_and!; [exact Ht|exact Hf|exact Hr|exact Hn|].
    vm_compute in Ht. by injection Ht as <-.
Defined.

Lemma twice_closed : closed twice.
Proof. unfold closed. apply (bool_decide_unpack _). by vm_compute. Qed.

Lemma closed_graph_result_witness :
  ∃ st,
    recurseHierarchy (serve twice) 5 "!root" (start ∅) = Done st
    ∧ fetchRoomsInSpace (serve twice) 5 "!root" ∅ = Some (allRooms st)
    ∧ NoDup (firsts st)
    ∧ (∀ v, v ∈ firsts st ↔ reach twice "!root" v)
    ∧ allRooms st ≡ₚ listed twice (firsts st).
Proof.
  apply (closed_graph_result twice "!root" 5 twice_closed).
  - rewrite elem_of_dom. by eexists.
  - vm_compute. lia.
Defined.

End walk_more_instances.

(** * Further properties of the walk of [room-monitor.js] *)

Section state_walk_more.
Import StateApi StateWalk.
Implicit Types (st : wstate) (subs acc : list room).

Lemma forSubspaces_rooms srv rec subs acc st rs st' :
  (∀ s st rs st', rec s st = Some (rs, st') →
     ∃ new, asked st' = asked st ++ new ∧ rs = new ≫= roomsAt srv) →
  forSubspaces rec subs acc st = Some (rs, st') →
  ∃ new, asked st' = asked st ++ new ∧ rs = acc ++ (new ≫= roomsAt srv).
Proof.
  intros Hrec. revert acc st. induction subs as [|s subs IH]; intros acc st.
  - simpl. intros [= <- <-]. exists []. by rewrite !app_nil_r.
  - simpl. destruct (rec (room_id s) st) as [[rs1 st1]|] eqn:E; [simpl|done].
    intros Hrest. destruct (Hrec _ _ _ _ E) as (n1 & A1 & ->).
    destruct (IH _ _ Hrest) as (n2 & A2 & ->).
    exists (n1 ++ n2). split.
    + by rewrite A2, A1, app_assoc.
    + by rewrite bind_app, app_assoc.
Qed.

(** The rooms returned are those of the spaces whose state was requested,
    in the order of the requests. *)
Lemma fetchRoomsInSpace_rooms srv fuel s st rs st' :
  fetchRoomsInSpace srv fuel s st = Some (rs, st') →
  ∃ new, asked st' = asked st ++ new ∧ rs = new ≫= roomsAt srv.
Proof.
  revert s st rs st'. induction fuel as [|fuel IH]; intros s st rs st'; [done|].
  cbn [fetchRoomsInSpace]. case_bool_decide as Hs.
  { intros [= <- <-]. exists []. by rewrite app_nil_r. }
  destruct (srv s) as [[es|]|] eqn:Hsrv.
  - intros Hrest.
    destruct (forSubspaces_rooms srv _ _ _ _ _ _ IH Hrest) as (new & A & ->).
    exists (s :: new). split.
    + rewrite A. simpl. by rewrite <- app_assoc.
    + simpl. unfold roomsAt at 2. by rewrite Hsrv.
  - intros [= <- <-]. exists [s]. split; [done|].
    simpl. unfold roomsAt. by rewrite Hsrv.
  - intros [= <- <-]. exists [s]. split; [done|].
    simpl. unfold roomsAt. by rewrite Hsrv.
Qed.

Lemma closedOver_trans srv V1 V2 V3 :
  closedOver srv V1 V2 → closedOver srv V2 V3 → closedOver srv V1 V3.
Proof.
  intros [H12 C12] [H23 C23]. split; [set_solver|].
  intros v sub Hv Hn Hsub. destruct (decide (v ∈ V2)) as [Hv2|Hv2].
  - apply H23. by eapply C12.
  - by eapply C23.
Qed.

Lemma forSubspaces_closed srv rec subs acc st rs st' :
  (∀ s st rs st', rec s st = Some (rs, st') →
     s ∈ visitedSpaces st'
     ∧ closedOver srv (visitedSpaces st) (visitedSpaces st')) →
  forSubspaces rec subs acc st = Some (rs, st') →
  closedOver srv (visitedSpaces st) (visitedSpaces st')
  ∧ ∀ sub, sub ∈ subs → room_id sub ∈ visitedSpaces st'.
Proof.
  intros Hrec. revert acc st. induction subs as [|s subs IH]; intros acc st.
  - simpl. intros [= _ <-]. split; [by split|]. by intros sub ?%elem_of_nil.
  - simpl. destruct (rec (room_id s) st) as [[rs1 st1]|] eqn:E; [simpl|done].
    intros Hrest. destruct (Hrec _ _ _ _ E) as [Hin Hc1].
    destruct (IH _ _ Hrest) as [Hc2 Hall]. split.
    + by eapply closedOver_trans.
    + intros sub [->|Hsub]%elem_of_cons; [|by apply Hall].
      destruct Hc2 as [Hsub2 _]. set_solver.
Qed.

Lemma fetchRoomsInSpace_closed srv fuel s st rs st' :
  fetchRoomsInSpace srv fuel s st = Some (rs, st') →
  s ∈ visitedSpaces st'
  ∧ closedOver srv (visitedSpaces st) (visitedSpaces st').
Proof.
  revert s st rs st'. induction fuel as [|fuel IH]; intros s st rs st'; [done|].
  cbn [fetchRoomsInSpace]. case_bool_decide as Hs.
  { intros [= _ <-]. split; [done|]. by split. }
  destruct (srv s) as [[es|]|] eqn:Hsrv.
  - intros Hrest.
    destruct (forSubspaces_closed srv _ _ _ _ _ _ IH Hrest) as [[Hsub Hc] Hall].
    simpl in Hsub, Hc. split; [set_solver|]. split; [set_solver|].
    intros v sub Hv Hn Hin. destruct (decide (v = s)) as [->|Hne].
    + apply Hall. unfold subsAt in Hin. by rewrite Hsrv in Hin.
    + eapply Hc; [exact Hv| |exact Hin]. set_solver.
  - intros [= _ <-]. simpl. split; [set_solver|]. split; [set_solver|].
    intros v sub Hv Hn Hin. assert (v = s) as -> by set_solver.
    unfold subsAt in Hin. rewrite Hsrv in Hin. by apply elem_of_nil in Hin.
  - intros [= _ <-]. simpl. split; [set_solver|]. split; [set_solver|].
    intros v sub Hv Hn Hin. assert (v = s) as -> by set_solver.
    unfold subsAt in Hin. rewrite Hsrv in Hin. by apply elem_of_nil in Hin.
Qed.

(** X9: in the class of [room-monitor.js] a space whose state cannot be
    read costs only its own contribution. Over a finite graph, cycles
    included, the walk returns, in the order of the requests, the rooms of
    every space it asked for; it asks once for the root and once for every
    sub-space named by a space it asked for; a space whose request fails
    contributes nothing. *)
Theorem state_walk_result (g : gmap string (list event)) fuel root :
  size g + 1 ≤ fuel →
  ∃ rs st,
    fetchRoomsInSpace (serve g) fuel root start = Some (rs, st)
    ∧ rs = asked st ≫= roomsAt (serve g)
    ∧ NoDup (asked st)
    ∧ root ∈ asked st
    ∧ (∀ v sub, v ∈ asked st → sub ∈ subsAt (serve g) v →
                room_id sub ∈ asked st)
    ∧ (∀ v, g !! v = None → roomsAt (serve g) v = []).
Proof.
  intros Hfuel.
  destruct (state_walk_once g fuel root Hfuel) as (rs & st & E & Hnd & Hiff).
  exists rs, st. split; [exact E|].
  destruct (fetchRoomsInSpace_rooms _ _ _ _ _ _ E) as (new & A & ->).
  destruct (fetchRoomsInSpace_closed _ _ _ _ _ _ E) as [Hroot [_ Hc]].
  simpl in A. subst new. split_and!.
  - done.
  - exact Hnd.
  - by apply Hiff.
  - intros v sub Hv Hsub. apply Hiff. eapply Hc; [by apply Hiff| |exact Hsub].
    simpl. set_solver.
  - intros v Hv. unfold roomsAt, serve. by rewrite Hv.
Qed.

Lemma state_walk_result_witness :
  ∃ rs st,
    fetchRoomsInSpace (serve brokenGraph) 3 "!root" start = Some (rs, st)
    ∧ rs = asked st ≫= roomsAt (serve brokenGraph)
    ∧ NoDup (asked st)
    ∧ "!root" ∈ asked st
    ∧ (∀ v sub, v ∈ asked st → sub ∈ subsAt (serve brokenGraph) v →
                room_id sub ∈ asked st)
    ∧ (∀ v, brokenGraph !! v = None → roomsAt (serve brokenGraph) v = []).
Proof.
  apply (state_walk_result brokenGraph 3 "!root"). vm_compute. lia.
Defined.

End state_walk_more.

(** * Properties of the monitor of [room-monitor.js] *)

Section state_monitor.
Import StateMonitor.
Implicit Types (m : RoomMonitor) (w : world) (ids : list string).

(** What [notifyAll] hands to [sendEvent]. *)
Lemma state_notifyAll ids m w :
  outbox (notifyAll ids m w)
  = outbox w ++ ((λ id, (notificationRoom m, simpleNotification (remote w) id))
                   <$> ids)
  ∧ remote (notifyAll ids m w) = remote w
  ∧ disk (notifyAll ids m w) = disk w
  ∧ disk_writable (notifyAll ids m w) = disk_writable w.
Proof.
  unfold notifyAll. revert w. induction ids as [|id ids IH]; intros w; simpl.
  - by rewrite app_nil_r.
  - destruct (IH (sendSimpleRoomNotification id m w)) as (-> & -> & -> & ->).
    simpl. by rewrite <- app_assoc.
Qed.

Lemma state_saveState_outbox m w : outbox (saveState m w) = outbox w.
Proof. unfold saveState. by destruct (disk_writable w). Qed.

(** X10: an alerting cycle of the class of [room-monitor.js] never aborts,
    and it calls [sendEvent] once for each fetched room id that the known
    set lacks, however many spaces list the room, and for no other id; the
    known set it leaves is the set of the fetched ids. *)
Theorem each_new_id_once fuel m w rs st :
  configured m = true →
  StateApi.fetchRoomsInSpace (spaces (remote w)) fuel
    (default "" (observedSpace m)) StateApi.start = Some (rs, st) →
  ∃ res m' w' ids,
    checkForNewRooms fuel true m w = Some (Some res, m', w')
    ∧ Monitor.r_error res = false
    ∧ outbox w'
      = outbox w ++ ((λ id, (notificationRoom m,
                             simpleNotification (remote w) id)) <$> ids)
    ∧ (λ p, sm_roomId p.2) <$> drop (length (outbox w)) (outbox w') = ids
    ∧ NoDup ids
    ∧ (∀ id, id ∈ ids
             ↔ id ∈ StateApi.room_id <$> rs ∧ id ∉ lastCheckedRooms m)
    ∧ lastCheckedRooms m' = Js.SetOf (StateApi.room_id <$> rs).
Proof.
  intros Hc Hf. unfold checkForNewRooms. rewrite Hc, Hf. simpl.
  set (ids := newRoomIdsOf (lastCheckedRooms m)
                (Js.SetOf (StateApi.room_id <$> rs))).
  destruct (state_notifyAll ids m w) as (Ho & _).
  do 3 eexists. exists ids. split; [reflexivity|].
  assert (outbox (saveState
                    (set_lastCheckedRooms
                       (Js.SetOf (StateApi.room_id <$> rs)) m)
                    (notifyAll ids m w))
          = outbox w ++ ((λ id, (notificationRoom m,
                                 simpleNotification (remote w) id)) <$> ids))
    as Hout by (by rewrite state_saveState_outbox).
  split_and!; [done|exact Hout| | | |done].
  - rewrite Hout, drop_app_length, <- list_fmap_compose.
    clear. induction ids as [|id ids IH]; [done|]. simpl. by f_equal.
  - apply NoDup_filter, NoDup_SetOf.
  - intros id. unfold ids, newRoomIdsOf.
    rewrite list_elem_of_filter, has_false, elem_of_SetOf. tauto.
Qed.

Lemma each_new_id_once_witness :
  ∃ res m' w' ids,
    checkForNewRooms 3 true fresh (world0 sharedState)
      = Some (Some res, m', w')
    ∧ Monitor.r_error res = false
    ∧ outbox w'
      = [] ++ ((λ id, (Some "!notif", simpleNotification sharedState id))
                 <$> ids)
    ∧ (λ p, sm_roomId p.2) <$> drop 0 (outbox w') = ids
    ∧ NoDup ids
    ∧ (∀ id, id ∈ ids
             ↔ id ∈ StateApi.room_id
                      <$> [ {| StateApi.room_id := "!r"; StateApi.name := "!r" |};
                            {| StateApi.room_id := "!r"; StateApi.name := "!r" |} ]
               ∧ id ∉ [])
    ∧ lastCheckedRooms m' = ["!r"].
Proof.
  destruct (StateApi.fetchRoomsInSpace (spaces sharedState) 3 "!root"
              StateApi.start) as [[rs st]|] eqn:E; [|discriminate E].
  pose proof (each_new_id_once 3 fresh (world0 sharedState) rs st eq_refl E)
    as H.
  vm_compute in E. injection E as <- <-. exact H.
Defined.

Lemma default_last_cons (d x : string) (l : list string) :
  default d (last (x :: l)) = default x (last l).
Proof.
  destruct l as [|y l]; [done|].
  change (last (x :: y :: l)) with (last (y :: l)).
  destruct (last (y :: l)) eqn:E; [done|]. by apply last_None in E.
Qed.

Lemma isType_distinct (a b : string) e :
  a ≠ b → isType a e = true → isType b e = false.
Proof.
  unfold isType. intros Hne Ha%String.eqb_eq.
  apply String.eqb_neq. congruence.
Qed.

Lemma foldl_observe es info :
  i_room_id (foldl observe info es) = i_room_id info
  ∧ i_name (foldl observe info es) = default (i_name info) (last (names es))
  ∧ joined_member_count (foldl observe info es)
    = joined_member_count info + length (filter (λ e, isJoin e = true) es).
Proof.
  revert info. induction es as [|e es IH]; intros info.
  - simpl. split_and!; [done..|lia].
  - cbn [foldl].
    destruct (IH (observe info e)) as (-> & -> & ->). clear IH.
    unfold names. cbn [omap list_omap]. fold (names es).
    unfold observe.
    destruct (isType "m.room.name" e
              && Js.truthy (StateApi.content_name (base e))) eqn:E1.
    { apply andb_prop in E1 as [Ht Hn].
      assert (isJoin e = false) as Hj.
      { unfold isJoin.
        pose proof (λ H, isType_distinct _ "m.room.member" e H Ht) as Hd.
        by rewrite Hd. }
      destruct (StateApi.content_name (base e)) as [nm|] eqn:Hnm; [|done].
      cbn [i_room_id i_name joined_member_count default].
      rewrite filter_cons_False by (by rewrite Hj).
      split_and!; [done| |done].
      by rewrite default_last_cons. }
    destruct (isType "m.room.canonical_alias" e && Js.truthy (content_alias e))
      eqn:E2.
    { apply andb_prop in E2 as [Ht Hn].
      assert (isJoin e = false) as Hj.
      { unfold isJoin.
        pose proof (λ H, isType_distinct _ "m.room.member" e H Ht) as Hd.
        by rewrite Hd. }
      cbn [i_room_id i_name joined_member_count].
      by rewrite filter_cons_False by (by rewrite Hj). }
    destruct (isType "m.room.topic" e && Js.truthy (content_topic e)) eqn:E3.
    { apply andb_prop in E3 as [Ht Hn].
      assert (isJoin e = false) as Hj.
      { unfold isJoin.
        pose proof (λ H, isType_distinct _ "m.room.member" e H Ht) as Hd.
        by rewrite Hd. }
      cbn [i_room_id i_name joined_member_count].
      by rewrite filter_cons_False by (by rewrite Hj). }
    destruct (isJoin e) eqn:Hj.
    + cbn [i_room_id i_name joined_member_count].
      rewrite filter_cons_True by done. simpl. split_and!; [done..|lia].
    + by rewrite filter_cons_False by (by rewrite Hj).
Qed.

(** X11: [getRoomInfo] does not raise. From the state events of a room it
    returns the room id it was given, the name of the last [m.room.name]
    event that carries one (the room id when there is none) and the number
    of [m.room.member] events whose membership is [join]; when the state
    cannot be read it returns [null], and the notification is then built
    from the room id alone. *)
Theorem getRoomInfo_reads srv roomId :
  (∀ es, srv roomId = Some (Some es) →
     ∃ info,
       getRoomInfo srv roomId = Some info
       ∧ i_room_id info = roomId
       ∧ i_name info = default roomId (last (names es))
       ∧ joined_member_count info
         = length (filter (λ e, isJoin e = true) es))
  ∧ (srv roomId = None ∨ srv roomId = Some None →
     getRoomInfo srv roomId = None
     ∧ simpleNotification srv roomId
       = {| sm_roomId := roomId; sm_roomName := roomId;
            sm_roomDescription := "";
            sm_roomLink := "https://matrix.to/#/" +:+ roomId |}).
Proof.
  split.
  - intros es Hsrv. unfold getRoomInfo. rewrite Hsrv.
    eexists. split; [reflexivity|].
    by destruct (foldl_observe es (blank roomId)) as (-> & -> & ->).
  - intros Hsrv.
    assert (getRoomInfo srv roomId = None) as Hnone
      by (unfold getRoomInfo; by destruct Hsrv as [-> | ->]).
    split; [exact Hnone|]. unfold simpleNotification. by rewrite Hnone.
Qed.

Lemma getRoomInfo_reads_witness :
  getRoomInfo lobby "!lobby"
  = Some {| i_room_id := "!lobby"; i_name := "Main lobby";
            canonical_alias := None; description := "";
            joined_member_count := 2 |}
  ∧ ∃ info,
      getRoomInfo lobby "!lobby" = Some info
      ∧ i_room_id info = "!lobby"
      ∧ i_name info = "Main lobby"
      ∧ joined_member_count info = 2.
Proof.
  split; [reflexivity|].
  exact (proj1 (getRoomInfo_reads lobby "!lobby") _ eq_refl).
Defined.

End state_monitor.

(** * The names and the counts that a cycle records *)

Section names_and_counts.
Import Hierarchy Monitor More.
Implicit Types (m : RoomMonitor) (w : world) (rs : list room)
  (fs : list (string * json)).

Lemma assoc_assign_eq k v fs : assoc k (assign k v fs) = Some v.
Proof.
  induction fs as [|[k' v'] fs IH]; simpl.
  - by rewrite String.eqb_refl.
  - destruct (String.eqb k k') eqn:E; simpl.
    + by rewrite String.eqb_refl.
    + by rewrite E.
Qed.

Lemma assoc_assign_ne k k' v fs :
  k ≠ k' → assoc k' (assign k v fs) = assoc k' fs.
Proof.
  intros Hne. induction fs as [|[k0 v0] fs IH]; simpl.
  - by rewrite (proj2 (String.eqb_neq k' k)).
  - destruct (String.eqb k k0) eqn:E; simpl.
    + apply String.eqb_eq in E as <-.
      by rewrite (proj2 (String.eqb_neq k' k)).
    + destruct (String.eqb k' k0); [done|exact IH].
Qed.

Lemma recordNames_entries (l : list room) fs :
  ∃ fs',
    recordNames l (JObj fs) = (JObj fs', true)
    ∧ (∀ k, k ∉ room_id <$> filter (λ r, named r = true) l →
            assoc k fs' = assoc k fs)
    ∧ (∀ r, r ∈ l → named r = true →
            ∃ r', r' ∈ l ∧ room_id r' = room_id r ∧ named r' = true
                  ∧ assoc (room_id r) fs'
                    = Some (JStr (default "" (name r')))).
Proof.
  revert fs. induction l as [|x l IH]; intros fs.
  - exists fs. split_and!; [done..|]. by intros r ?%elem_of_nil.
  - cbn [recordNames]. fold (named x). destruct (named x) eqn:Hx.
    + cbn [setProp].
      destruct (IH (assign (room_id x) (JStr (default "" (name x))) fs))
        as (fs' & -> & Hkeep & Hnew).
      exists fs'. split_and!; [done| |].
      * intros k Hk. rewrite filter_cons_True in Hk by done.
        rewrite fmap_cons, not_elem_of_cons in Hk. destruct Hk as [Hne Hk].
        rewrite (Hkeep k Hk). by apply assoc_assign_ne.
      * assert (∀ r, r ∈ l → named r = true →
                     ∃ r', r' ∈ x :: l ∧ room_id r' = room_id r
                           ∧ named r' = true
                           ∧ assoc (room_id r) fs'
                             = Some (JStr (default "" (name r')))) as Hl.
        { intros r Hr Hn. destruct (Hnew r Hr Hn) as (r' & Hr' & ?).
          exists r'. split; [by right|done]. }
        intros r [->|Hr]%elem_of_cons Hn; [|by apply Hl].
        destruct (decide (room_id x
                          ∈ room_id <$> filter (λ r, named r = true) l))
          as [Hin|Hout].
        -- apply list_elem_of_fmap in Hin
             as (r2 & E2 & [Hn2 Hr2]%list_elem_of_filter).
           rewrite E2. by apply Hl.
        -- exists x. split_and!; [by left|done..|].
           rewrite (Hkeep _ Hout). apply assoc_assign_eq.
    + destruct (IH fs) as (fs' & -> & Hkeep & Hnew).
      exists fs'. split_and!; [done| |].
      * intros k Hk. apply Hkeep.
        by rewrite filter_cons_False in Hk by (by rewrite Hx).
      * intros r [->|Hr]%elem_of_cons Hn; [congruence|].
        destruct (Hnew r Hr Hn) as (r' & Hr' & ?).
        exists r'. split; [by right|done].
Qed.

(** X12: [roomNames] only grows. A cycle over an object in [roomNames]
    completes and leaves an object; every new room with a name of its own
    is entered under its id with the name of a new room of that id; every
    other key keeps its value, so no name is ever dropped, also not the
    names of rooms that have left the space; and the file receives that
    object. *)
Theorem roomNames_only_grow fuel shouldAlert m w rs fs :
  configured m = true →
  fetchRoomsInSpace (remote w) fuel (default "" (observedSpace m)) ∅
    = Some rs →
  roomNames m = JObj fs →
  ∃ res m' w' fs',
    checkForNewRooms fuel shouldAlert m w = Some (Some res, m', w')
    ∧ r_error res = false
    ∧ roomNames m' = JObj fs'
    ∧ (∀ k, is_Some (assoc k fs) → is_Some (assoc k fs'))
    ∧ (∀ k, k ∉ room_id <$> filter (λ r, named r = true)
                              (newRoomsOf (lastCheckedRooms m) rs) →
            assoc k fs' = assoc k fs)
    ∧ (∀ r, r ∈ newRoomsOf (lastCheckedRooms m) rs → named r = true →
            ∃ r', r' ∈ newRoomsOf (lastCheckedRooms m) rs
                  ∧ room_id r' = room_id r ∧ named r' = true
                  ∧ assoc (room_id r) fs'
                    = Some (JStr (default "" (name r'))))
    ∧ (disk_writable w = true →
       ∃ v, disk w' = Stored v ∧ prop "roomNames" v = Some (Some (JObj fs'))).
Proof.
  intros Hc Hf Hfs.
  rewrite (checkForNewRooms_unfold _ _ _ _ rs Hc Hf), Hfs.
  destruct (recordNames_entries (newRoomsOf (lastCheckedRooms m) rs) fs)
    as (fs' & -> & Hkeep & Hnew).
  do 3 eexists. exists fs'. split; [reflexivity|].
  split_and!; [done..| |exact Hkeep|exact Hnew|].
  - intros k Hk.
    destruct (decide (k ∈ room_id <$> filter (λ r, named r = true)
                            (newRoomsOf (lastCheckedRooms m) rs)))
      as [Hin|Hout].
    + apply list_elem_of_fmap in Hin
        as (r & -> & [Hn Hr]%list_elem_of_filter).
      destruct (Hnew r Hr Hn) as (r' & _ & _ & _ & ->). by eexists.
    + by rewrite (Hkeep k Hout).
  - intros Hw. eexists. split.
    + unfold saveState.
      replace (disk_writable (if shouldAlert && _ then _ else w)) with true.
      * reflexivity.
      * destruct (shouldAlert && _); [|done].
        by destruct (notifyAll_rest
                       (newRoomsOf (lastCheckedRooms m) rs)
                       (set_roomNames (JObj fs') m) w) as (_ & _ & -> & _).
    + reflexivity.
Qed.

Lemma roomNames_only_grow_witness :
  ∃ res m' w' fs',
    checkForNewRooms 3 true
      (set_roomNames (JObj [("!gone", JStr "Gone")]) Example.fresh)
      (Example.world0 alpha) = Some (Some res, m', w')
    ∧ r_error res = false
    ∧ roomNames m' = JObj fs'
    ∧ (∀ k, is_Some (assoc k [("!gone", JStr "Gone")]) →
            is_Some (assoc k fs'))
    ∧ (∀ k, k ∉ room_id <$> filter (λ r, named r = true)
                              [metadata (namedLeaf "!r1" "Alpha")] →
            assoc k fs' = assoc k [("!gone", JStr "Gone")])
    ∧ (∀ r, r ∈ [metadata (namedLeaf "!r1" "Alpha")] → named r = true →
            ∃ r', r' ∈ [metadata (namedLeaf "!r1" "Alpha")]
                  ∧ room_id r' = room_id r ∧ named r' = true
                  ∧ assoc (room_id r) fs'
                    = Some (JStr (default "" (name r'))))
    ∧ (true = true →
       ∃ v, disk w' = Stored v ∧ prop "roomNames" v = Some (Some (JObj fs'))).
Proof.
  exact (roomNames_only_grow 3 true
           (set_roomNames (JObj [("!gone", JStr "Gone")]) Example.fresh)
           (Example.world0 alpha) [metadata (namedLeaf "!r1" "Alpha")]
           [("!gone", JStr "Gone")] eq_refl eq_refl eq_refl).
Defined.

Lemma length_SetOf (l : list string) :
  length (Js.SetOf l) = size (list_to_set l : gset string).
Proof.
  rewrite <- (size_list_to_set (C := gset string) (Js.SetOf l))
    by apply NoDup_SetOf.
  f_equal. apply set_eq. intros x.
  by rewrite !elem_of_list_to_set, elem_of_SetOf.
Qed.

(** X13: the counts of a completed cycle. [checked] is the number of
    distinct fetched room ids; [new] is the number of fetched entries whose
    id is unknown, an id listed twice counted twice. Neither exceeds the
    number of fetched entries, and [new] does not exceed [checked] when no
    id is fetched twice. *)
Theorem result_counts fuel shouldAlert m w rs :
  configured m = true →
  fetchRoomsInSpace (remote w) fuel (default "" (observedSpace m)) ∅
    = Some rs →
  ∃ res m' w',
    checkForNewRooms fuel shouldAlert m w = Some (Some res, m', w')
    ∧ (r_error res = false →
       r_checked res = size (list_to_set (room_id <$> rs) : gset string)
       ∧ r_new res
         = length (filter (λ r, room_id r ∉ lastCheckedRooms m) rs)
       ∧ r_checked res ≤ length rs
       ∧ r_new res ≤ length rs
       ∧ (NoDup (room_id <$> rs) → r_new res ≤ r_checked res)).
Proof.
  intros Hc Hf. rewrite (checkForNewRooms_unfold _ _ _ _ rs Hc Hf).
  destruct (recordNames _ _) as [names []];
    [|do 3 eexists; split; [reflexivity|done]].
  do 3 eexists. split; [reflexivity|]. intros _. cbn [r_checked r_new].
  assert (newRoomsOf (lastCheckedRooms m) rs
          = filter (λ r, room_id r ∉ lastCheckedRooms m) rs) as Hnew.
  { unfold newRoomsOf. apply list_filter_iff. intros r. apply has_false. }
  assert (length (currentRoomIdsOf rs) ≤ length rs) as Hle.
  { unfold currentRoomIdsOf.
    rewrite <- (length_fmap room_id rs).
    apply submseteq_length, NoDup_submseteq; [apply NoDup_SetOf|].
    intros x. by rewrite elem_of_SetOf. }
  split_and!.
  - apply length_SetOf.
  - by rewrite Hnew.
  - exact Hle.
  - rewrite Hnew. apply length_filter.
  - intros Hnd. unfold currentRoomIdsOf. rewrite SetOf_NoDup by done.
    rewrite length_fmap, Hnew. apply length_filter.
Qed.

Lemma result_counts_witness :
  ∃ res m' w',
    checkForNewRooms 3 true Example.fresh (Example.world0 Example.shared)
      = Some (Some res, m', w')
    ∧ (r_error res = false →
       r_checked res = 1
       ∧ r_new res = 2
       ∧ r_checked res ≤ 2
       ∧ r_new res ≤ 2
       ∧ (NoDup ["!r"; "!r"] → r_new res ≤ r_checked res)).
Proof.
  exact (result_counts 3 true Example.fresh (Example.world0 Example.shared)
           [Example.plain "!r"; Example.plain "!r"] eq_refl eq_refl).
Defined.

End names_and_counts.

(** * Starting and stopping on the event loop *)

Section startup.
Import Hierarchy Monitor Startup.
Implicit Types (m : RoomMonitor) (w : world) (s : sys).

Lemma run_app fuel es1 es2 s :
  run fuel (es1 ++ es2) s = run fuel es1 s ≫= run fuel es2.
Proof.
  revert s. induction es1 as [|e es1 IH]; intros s; [done|].
  simpl. destruct (step fuel e s) as [s'|]; [simpl; apply IH|done].
Qed.

(** Neither [loadState] nor a cycle reads [isRunning] or the timer. *)
Lemma loadState_running b t m w :
  loadState (set_running b t m) w
  = ((loadState m w).1, set_running b t (loadState m w).2).
Proof.
  unfold loadState. destruct (disk w) as [| | |state]; try done.
  destruct (prop "rooms" state); [|done]. by destruct (toSet _).
Qed.

Lemma loadState_configured m w :
  configured (loadState m w).2 = configured m
  ∧ isRunning (loadState m w).2 = isRunning m
  ∧ checkInterval (loadState m w).2 = checkInterval m.
Proof.
  unfold loadState. destruct (disk w) as [| | |state]; try done.
  destruct (prop "rooms" state); [|done]. by destruct (toSet _).
Qed.

Lemma checkForNewRooms_running fuel sa b t m w :
  checkForNewRooms fuel sa (set_running b t m) w
  = (λ '(r, m', w'), (r, set_running b t m', w'))
    <$> checkForNewRooms fuel sa m w.
Proof.
  unfold checkForNewRooms.
  change (configured (set_running b t m)) with (configured m).
  destruct (negb (configured m)); [done|].
  change (observedSpace (set_running b t m)) with (observedSpace m).
  destruct (fetchRoomsInSpace _ _ _ _) as [rs|]; [simpl|done].
  change (roomNames (set_running b t m)) with (roomNames m).
  change (lastCheckedRooms (set_running b t m)) with (lastCheckedRooms m).
  by destruct (recordNames _ _) as [names []].
Qed.

Lemma resumeStart_drain fuel k p m w r m' w' infl lv cr hd :
  Loop.drain fuel k p m w = Some (r, m', w') →
  ∃ j, run fuel (replicate j (ResumeStart 0))
         {| mon := m; wld := w; starts := [AwaitCheck p];
            inflight := infl; live := lv; created := cr; held := hd |}
       = Some {| mon := m'; wld := w';
                 starts := [AwaitCheck (Loop.Finished r)];
                 inflight := infl; live := lv; created := cr; held := hd |}.
Proof.
  revert p m w. induction k as [|k IH]; intros p m w Hd.
  - destruct p as [t|r0]; [done|]. injection Hd as -> -> ->. by exists 0.
  - destruct p as [t|r0]; [|injection Hd as -> -> ->; by exists 0].
    cbn [Loop.drain] in Hd.
    destruct (Loop.resume fuel t m w) as [[[p1 m1] w1]|] eqn:Hr; [|done].
    simpl in Hd. destruct (IH p1 m1 w1 Hd) as [j Hj].
    exists (S j). cbn [replicate run step]. simpl. rewrite Hr. simpl.
    exact Hj.
Qed.

(** A start that is resumed alone, from its [await] on [loadState] to its
    return: it loads, runs the first cycle, and installs a timer. *)
Lemma start_alone fuel m1 w r m3 w3 infl lv cr hd :
  checkForNewRooms fuel (loadState m1 w).1 (loadState m1 w).2 w
    = Some (r, m3, w3) →
  ∃ k, run fuel (replicate k (ResumeStart 0))
         {| mon := m1; wld := w;
            starts := [AwaitLoad (existsSync (disk w))];
            inflight := infl; live := lv; created := cr; held := hd |}
       = Some {| mon := set_running (isRunning m3) (Some (interval m3)) m3;
                 wld := w3; starts := [];
                 inflight := infl; live := lv ++ [cr]; created := S cr;
                 held := Some cr |}.
Proof.
  intros Hc.
  assert ((if existsSync (disk w) then loadState m1 w else (false, m1))
          = loadState m1 w) as Hload.
  { unfold loadState. by destruct (disk w). }
  destruct (loadState m1 w) as [has m2] eqn:Hl. simpl in Hc.
  assert (∃ k, Loop.drain fuel k (Loop.spawn has m2) m2 w
               = Some (r, m3, w3)) as [k Hk].
  { destruct (configured m2) eqn:Hcf.
    - unfold checkForNewRooms in Hc. rewrite Hcf in Hc. simpl in Hc.
      destruct (fetchRoomsInSpace (remote w) fuel
                  (default "" (observedSpace m2)) ∅) as [rs|] eqn:Hf;
        [|done].
      exists (2 * length rs + 4).
      rewrite (drain_checkForNewRooms fuel has m2 w rs) by (done || lia).
      unfold checkForNewRooms. rewrite Hcf. simpl. rewrite Hf. exact Hc.
    - exists 0. unfold checkForNewRooms in Hc. unfold Loop.spawn.
      rewrite Hcf in *. exact Hc. }
  destruct (resumeStart_drain fuel k _ m2 w r m3 w3 infl lv cr hd Hk)
    as [j Hj].
  exists (1 + j + 1). rewrite !replicate_add, !run_app. simpl.
  rewrite Hl, Hload. simpl. rewrite Hj. reflexivity.
Qed.

(** X3: [startMonitoring] is guarded by [isRunning] alone. A call while
    the flag is set returns at once, also while an earlier call is still
    suspended. A start that nothing interrupts does what the code does in
    one piece, leaves the monitor running and its one new timer held, and
    a further call then returns at once. When [stopMonitoring] is called
    while the start waits for its load, the start still loads, runs its
    first cycle and installs its timer: it returns with [isRunning] false
    and a live timer that starts no cycle, and a further call does not
    return at once but starts over. *)
Theorem start_guarded_by_flag fuel s m' w' :
  starts s = [] →
  isRunning (mon s) = false →
  configured (mon s) = true →
  startMonitoring fuel (mon s) (wld s) = Some (m', w') →
  (∀ s0, isRunning (mon s0) = true → step fuel CallStart s0 = Some s0)
  ∧ (∃ k s1,
       run fuel (CallStart :: replicate k (ResumeStart 0)) s = Some s1
       ∧ mon s1 = m' ∧ wld s1 = w' ∧ isRunning m' = true
       ∧ starts s1 = [] ∧ held s1 = Some (created s)
       ∧ live s1 = live s ++ [created s]
       ∧ step fuel CallStart s1 = Some s1)
  ∧ (∃ k s2,
       run fuel (CallStart :: CallStop :: replicate k (ResumeStart 0)) s
         = Some s2
       ∧ mon s2 = set_running false (monitoringInterval m') m'
       ∧ wld s2 = w'
       ∧ starts s2 = [] ∧ held s2 = Some (created s)
       ∧ created s ∈ live s2
       ∧ step fuel (Fire (created s)) s2 = Some s2
       ∧ ∃ s3, step fuel CallStart s2 = Some s3
               ∧ isRunning (mon s3) = true
               ∧ starts s3 = [AwaitLoad (existsSync (disk w'))]).
Proof.
  intros Hst Hr Hc Hs. destruct s as [m w sts infl lv cr hd].
  cbn [mon wld starts created held live] in *. subst sts.
  unfold startMonitoring in Hs. rewrite Hr, Hc in Hs. simpl negb in Hs.
  cbv iota in Hs. rewrite loadState_running in Hs.
  rewrite checkForNewRooms_running in Hs.
  destruct (checkForNewRooms fuel (loadState m w).1 (loadState m w).2 w)
    as [[[r n3] w3]|] eqn:Hcycle; [|done].
  simpl in Hs. injection Hs as <- <-.
  destruct (checkForNewRooms_flags _ _ _ _ _ _ _ Hcycle)
    as (Hrun & _ & Hobs & Hnot & Hint).
  destruct (loadState_configured m w) as (Hc2 & Hr2 & Hi2).
  assert (configured n3 = true) as Hc3.
  { unfold configured. rewrite Hobs, Hnot.
    fold (configured (loadState m w).2). by rewrite Hc2. }
  split_and!.
  - intros s0 H0. unfold step. by rewrite H0.
  - destruct (start_alone fuel (set_running true (monitoringInterval m) m) w
                r (set_running true (monitoringInterval m) n3) w3
                infl lv cr hd) as [k Hk].
    { rewrite loadState_running. cbn [fst snd].
      by rewrite checkForNewRooms_running, Hcycle. }
    exists k. eexists. cbn [run step mon]. rewrite Hr, Hc. simpl.
    split; [exact Hk|]. by split_and!.
  - destruct (start_alone fuel (set_running false None m) w
                r (set_running false None n3) w3
                infl (match hd with
                      | Some h => filter (λ x, x ≠ h) lv
                      | None => lv
                      end) cr None) as [k Hk].
    { rewrite loadState_running. cbn [fst snd].
      by rewrite checkForNewRooms_running, Hcycle. }
    exists k. eexists. cbn [run step mon]. rewrite Hr, Hc. simpl.
    split; [exact Hk|]. split_and!; try done.
    + apply elem_of_app. right. apply list_elem_of_here.
    + unfold step. cbn [live mon isRunning set_running].
      rewrite bool_decide_eq_true_2; [done|].
      apply elem_of_app. right. apply list_elem_of_here.
    + eexists. unfold step. cbn [mon isRunning set_running].
      change (configured (set_running false _ (set_running false None n3)))
        with (configured n3).
      rewrite Hc3. simpl. split_and!; reflexivity.
Qed.

Lemma start_guarded_by_flag_witness :
  (∃ k s1,
     run 3 (CallStart :: replicate k (ResumeStart 0))
       (idle Example.fresh (Example.world0 Example.one)) = Some s1
     ∧ isRunning (mon s1) = true
     ∧ live s1 = [0] ∧ held s1 = Some 0
     ∧ step 3 CallStart s1 = Some s1)
  ∧ ∃ s2 s4 s6 s7,
      run 3 [CallStart; CallStop; ResumeStart 0; ResumeStart 0;
             ResumeStart 0; ResumeStart 0]
        (idle Example.fresh (Example.world0 Example.one)) = Some s2
      ∧ isRunning (mon s2) = false ∧ live s2 = [0] ∧ held s2 = Some 0
      ∧ step 3 (Fire 0) s2 = Some s2
      ∧ run 3 [CallStart; ResumeStart 0; ResumeStart 0; ResumeStart 0;
               ResumeStart 0] s2 = Some s4
      ∧ isRunning (mon s4) = true ∧ live s4 = [0; 1] ∧ held s4 = Some 1
      ∧ run 3 [Fire 0; Fire 1] s4 = Some s6
      ∧ inflight s6 = [Loop.AwaitFetch true; Loop.AwaitFetch true]
      ∧ step 3 CallStop s6 = Some s7
      ∧ isRunning (mon s7) = false ∧ live s7 = [0] ∧ held s7 = None.
Proof.
  split.
  - edestruct (start_guarded_by_flag 3
                 (idle Example.fresh (Example.world0 Example.one)) _ _
                 eq_refl eq_refl eq_refl eq_refl)
      as (_ & (k & s1 & Hrun & Hm & _ & Hr & _ & Hh & Hl & Hg) & _).
    exists k, s1. rewrite Hm. by split_and!.
  - destruct (run 3 [CallStart; CallStop; ResumeStart 0; ResumeStart 0;
                     ResumeStart 0; ResumeStart 0]
                (idle Example.fresh (Example.world0 Example.one)))
      as [s2|] eqn:E2; [|by vm_compute in E2].
    exists s2. pose proof E2 as R2. vm_compute in R2. injection R2 as <-.
    destruct (run 3 [CallStart; ResumeStart 0; ResumeStart 0; ResumeStart 0;
                     ResumeStart 0] _) as [s4|] eqn:E4 in |- *;
      [|by vm_compute in E4].
    exists s4. pose proof E4 as R4. vm_compute in R4. injection R4 as <-.
    destruct (run 3 [Fire 0; Fire 1] _) as [s6|] eqn:E6 in |- *;
      [|by vm_compute in E6].
    exists s6. pose proof E6 as R6. vm_compute in R6. injection R6 as <-.
    eexists. by split_and!; vm_compute.
Defined.

End startup.
